(** * twitter-web-exporter: [src/utils/api.ts]

    A shallow embedding of the timeline extraction helpers and the
    properties they are specified to have.

    Conventions of the embedding.
    - A JavaScript string is a [string]; its characters are the 8-bit
      [ascii] code units (URLs are ASCII), so of the four ECMAScript line
      terminators only LF and CR are representable.
    - The type declarations of [@/types] are not part of the file, so the
      records below are read off the property accesses of the source: a
      property read through [?.], under [??], under a truthiness test or
      inside [try] is optional ([option], [None] standing for an absent,
      [undefined] or [null] property), a property read without any guard is
      a plain field.
    - A bitrate is a count of bits per second, a natural number ([N]).
    - An abrupt completion ([throw]) is the [Throw] case of [completion]. *)

From Stdlib Require Import List String Ascii Bool Arith NArith Lia.
Import ListNotations.
Open Scope string_scope.
Open Scope list_scope.

Set Implicit Arguments.
Set Warnings "-register-all".

(** ** JavaScript operators used by the source *)

Inductive JsError : Type :=
| SyntaxError
| TypeError.

Inductive completion (A : Type) : Type :=
| Normal (a : A)
| Throw (e : JsError).

Arguments Normal {A} a.
Arguments Throw {A} e.

Definition bind {A B : Type} (c : completion A) (k : A -> completion B)
  : completion B :=
  match c with
  | Normal a => k a
  | Throw e => Throw e
  end.

Notation "x <- c ;; k" := (bind c (fun x => k))
  (at level 61, c at next level, right associativity).

(** [a ?? b] *)
Definition nullish {A : Type} (a : option A) (b : A) : A :=
  match a with
  | Some v => v
  | None => b
  end.

(** [a?.f] *)
Definition optional_chain {A B : Type} (a : option A) (f : A -> option B)
  : option B :=
  match a with
  | Some v => f v
  | None => None
  end.

Infix "??" := nullish (at level 45, left associativity).
Infix "?." := optional_chain (at level 40, left associativity).

(** ** Data model *)

Record Variant : Type := mkVariant {
  bitrate : option N;
  url : string
}.

Record VideoInfo : Type := mkVideoInfo {
  variants : list Variant
}.

Record Media : Type := mkMedia {
  type : string;
  media_url_https : string;
  video_info : option VideoInfo
}.

(** [entities] and [extended_entities] *)
Record Entities : Type := mkEntities {
  media : option (list Media)
}.

(** [user.legacy] *)
Record UserLegacy : Type := mkUserLegacy {
  screen_name : option string
}.

Record User : Type := mkUser {
  user_legacy : option UserLegacy          (* [legacy] *)
}.

(** [tweet.core.user_results] *)
Record UserResults : Type := mkUserResults {
  user_result : option User                (* [result] *)
}.

Record Core : Type := mkCore {
  user_results : option UserResults
}.

(** [note_tweet.note_tweet_results.result] *)
Record NoteTweetResult : Type := mkNoteTweetResult {
  text : string
}.

Record NoteTweetResults : Type := mkNoteTweetResults {
  note_result : NoteTweetResult            (* [result] *)
}.

Record NoteTweet : Type := mkNoteTweet {
  note_tweet_results : NoteTweetResults
}.

Record TweetWithVisibilityResults (T : Type) : Type := mkVisibility {
  wrapper_typename : string;               (* [__typename] *)
  tweet : T
}.

(** A value of static type [Tweet | TweetWithVisibilityResults] as it is met
    at run time: it may also be [null] or [undefined]. *)
Inductive TweetUnion (T : Type) : Type :=
| JsNull
| JsUndefined
| TweetObject (t : T)
| VisibilityObject (w : TweetWithVisibilityResults T).

Arguments JsNull {T}.
Arguments JsUndefined {T}.
Arguments TweetObject {T} t.
Arguments VisibilityObject {T} w.

(** [retweeted_status_result] and [quoted_status_result] *)
Record TweetResult (T : Type) : Type := mkTweetResult {
  result : TweetUnion T
}.

Record Legacy (T : Type) : Type := mkLegacy {
  full_text : string;
  retweeted_status_result : option (TweetResult T);
  extended_entities : option Entities;
  entities : Entities
}.

Inductive Tweet : Type := mkTweet {
  __typename : string;
  core : option Core;
  legacy : Legacy Tweet;
  note_tweet : option NoteTweet;
  quoted_status_result : option (TweetResult Tweet)
}.

Definition TweetValue : Type := TweetUnion Tweet.

(** Truthiness of a value that is an object, [null] or [undefined]. *)
Definition truthy (x : TweetValue) : bool :=
  match x with
  | JsNull | JsUndefined => false
  | TweetObject _ | VisibilityObject _ => true
  end.

(** [x?.__typename] *)
Definition typename_of (x : TweetValue) : option string :=
  match x with
  | JsNull | JsUndefined => None
  | TweetObject t => Some (__typename t)
  | VisibilityObject w => Some (wrapper_typename w)
  end.

(** [x.tweet] on an object; a tweet record has no such property. *)
Definition tweet_of (x : TweetValue) : TweetValue :=
  match x with
  | VisibilityObject w => TweetObject (tweet w)
  | _ => JsUndefined
  end.

(** [a === b] with [a] possibly [undefined] and [b] a string literal. *)
Definition strict_eq (a : option string) (b : string) : bool :=
  match a with
  | Some s => String.eqb s b
  | None => false
  end.

(** ** Object extractors *)

Definition extractTweetWithVisibility (tweet : TweetValue) : TweetValue :=
  if strict_eq (typename_of tweet) "TweetWithVisibilityResults"
  then tweet_of tweet
  else tweet.

Definition extractRetweetedTweet (tweet : Tweet) : TweetValue :=
  match retweeted_status_result (legacy tweet) with
  | Some r =>
      if truthy (result r)
      then extractTweetWithVisibility (result r)
      else JsNull
  | None => JsNull
  end.


(** The nullish view of a value, for [??]. *)
Definition defined (x : TweetValue) : option TweetValue :=
  match x with
  | JsNull | JsUndefined => None
  | _ => Some x
  end.

(** [x.legacy.<property>]: the read of [legacy] followed by a further
    property read, which throws unless [x] is an object with a [legacy]. *)
Definition read_legacy (x : TweetValue) : completion (Legacy Tweet) :=
  match x with
  | TweetObject t => Normal (legacy t)
  | _ => Throw TypeError
  end.

Definition extractTweetMedia (tweet : Tweet) : completion (list Media) :=
  let realTweet := defined (extractRetweetedTweet tweet) ?? TweetObject tweet in
  l <- read_legacy realTweet ;;
  match extended_entities l ?. media with
  | Some m => Normal m
  | None => Normal (media (entities l) ?? [])
  end.

Definition extractTweetFullText (tweet : Tweet) : string :=
  (note_tweet tweet ?. (fun n => Some (text (note_result (note_tweet_results n)))))
    ?? full_text (legacy tweet).

(** ** The logging sink and the console

    [console.log] and [logger.error] are the only effects of the file; the
    state threaded through [extractTweetUserScreenName] records what each of
    them received. *)

Record LogEvent : Type := mkLogEvent {
  log_message : string;
  log_error : JsError;
  log_context : Tweet
}.

Record Sinks : Type := mkSinks {
  console : list Tweet;
  logger : list LogEvent
}.

Definition console_log (tweet : Tweet) (s : Sinks) : Sinks :=
  {| console := console s ++ [tweet]; logger := logger s |}.

(** Modelled from the spec: [./logger] is not part of the file; its [error]
    method is the injected sink accepting [(message, error, context)], which
    records one event per call and returns. *)
Definition logger_error (msg : string) (err : JsError) (tweet : Tweet)
  (s : Sinks) : Sinks :=
  {| console := console s;
     logger := logger s ++ [mkLogEvent msg err tweet] |}.

(** [o.p] where [o] itself was read from a possibly absent property: reading
    a property of [undefined] or [null] throws a [TypeError]. *)
Definition member {A : Type} (o : option A) : completion A :=
  match o with
  | Some v => Normal v
  | None => Throw TypeError
  end.

(** [try { body } catch (err) { handler }] over the sink state. *)
Definition try_catch {A S : Type} (body : completion A)
  (handler : JsError -> S -> completion A * S) (s : S) : completion A * S :=
  match body with
  | Normal a => (Normal a, s)
  | Throw err => handler err s
  end.

(** [tweet.core.user_results.result.legacy.screen_name] *)
Definition screen_name_path (tweet : Tweet) : completion (option string) :=
  c <- member (core tweet) ;;
  ur <- member (user_results c) ;;
  u <- member (user_result ur) ;;
  l <- member (user_legacy u) ;;
  Normal (screen_name l).

(** The value returned is a string, or [undefined] ([None]) when the record
    at the end of the path has no [screen_name]. *)
Definition extractTweetUserScreenName (tweet : Tweet) (s : Sinks)
  : completion (option string) * Sinks :=
  try_catch (screen_name_path tweet)
    (fun err s0 =>
       let s1 := console_log tweet s0 in
       let s2 := logger_error "Failed to extract tweet user screen name" err tweet s1 in
       (Normal (Some "READ_ERROR"), s2))
    s.

(** ** Regular expressions

    The two patterns of the source are run by a backtracking matcher in the
    continuation-passing style of the ECMAScript specification (22.2.2): a
    matcher takes a match state and a continuation and returns the final
    state or a failure ([None]).  A state carries the index reached in the
    input, the input that is left from there, and the captures. *)

Inductive Regex : Type :=
| Empty
| CharSet (p : ascii -> bool)       (* one character of a set *)
| InputStart                        (* [^] *)
| InputEnd                          (* [$] *)
| Seq (r1 r2 : Regex)
| Disjunction (r1 r2 : Regex)       (* [r1|r2] *)
| Plus (r : Regex)                  (* [r+], greedy *)
| Optional (r : Regex)              (* [r?], greedy *)
| Group (i : nat) (r : Regex).      (* the [i]-th capturing parenthesis *)

Definition Captures : Type := list (option (list ascii)).

Record MatchState : Type := mkState {
  endIndex : nat;
  remaining : list ascii;
  captures : Captures
}.

Definition Continuation : Type := MatchState -> option MatchState.

Definition in_range (lo hi : N) (c : ascii) : bool :=
  (N.leb lo (N_of_ascii c) && N.leb (N_of_ascii c) hi)%bool.

(** [\w] without the [i] and [u] flags: [[A-Za-z0-9_]] *)
Definition is_word_char (c : ascii) : bool :=
  (in_range 97 122 c || in_range 65 90 c || in_range 48 57 c
   || Ascii.eqb c "_")%bool.

(** LF and CR *)
Definition is_line_terminator (c : ascii) : bool :=
  (N.eqb (N_of_ascii c) 10 || N.eqb (N_of_ascii c) 13)%bool.

Definition not_line_terminator (c : ascii) : bool :=
  negb (is_line_terminator c).

Fixpoint set_nth {A : Type} (n : nat) (v : A) (l : list A) : list A :=
  match l, n with
  | [], _ => []
  | _ :: l', O => v :: l'
  | a :: l', S n' => a :: set_nth n' v l'
  end.

(** Capture [i] (counted from 1) is kept at position [i - 1]. *)
Definition set_capture (i : nat) (v : list ascii) (cap : Captures) : Captures :=
  set_nth (pred i) (Some v) cap.

Fixpoint groups_of (r : Regex) : list nat :=
  match r with
  | Seq r1 r2 | Disjunction r1 r2 => groups_of r1 ++ groups_of r2
  | Plus r1 | Optional r1 => groups_of r1
  | Group i r1 => i :: groups_of r1
  | _ => []
  end.

(** The captures of the parentheses inside a quantified atom are reset each
    time the atom is entered. *)
Definition clear_captures (r : Regex) (x : MatchState) : MatchState :=
  mkState (endIndex x) (remaining x)
    (fold_left (fun cap i => set_nth (pred i) None cap) (groups_of r) (captures x)).

(** A literal character, [.] and [\w] *)
Definition Char (ch : ascii) : Regex := CharSet (Ascii.eqb ch).
Definition Dot : Regex := CharSet not_line_terminator.
Definition WordChar : Regex := CharSet is_word_char.

(** CharacterSetMatcher *)
Definition char_matcher (p : ascii -> bool) (x : MatchState) (c : Continuation)
  : option MatchState :=
  match remaining x with
  | ch :: rest =>
      if p ch then c (mkState (S (endIndex x)) rest (captures x)) else None
  | [] => None
  end.

Definition or_else {A : Type} (a b : option A) : option A :=
  match a with
  | Some z => Some z
  | None => b
  end.

(** RepeatMatcher with [min = 0] and no upper bound, greedy: another
    iteration of [m] is tried first and has to consume input; [fuel] bounds
    the number of iterations by the length of the input that is left. *)
Fixpoint repeat_matcher (m : MatchState -> Continuation -> option MatchState)
  (clear : MatchState -> MatchState) (fuel : nat) (x : MatchState)
  (c : Continuation) : option MatchState :=
  match fuel with
  | O => c x
  | S fuel' =>
      or_else
        (m (clear x)
           (fun y =>
              if Nat.eqb (endIndex y) (endIndex x) then None
              else repeat_matcher m clear fuel' y c))
        (c x)
  end.

Fixpoint matcher (r : Regex) (x : MatchState) (c : Continuation)
  : option MatchState :=
  match r with
  | Empty => c x
  | CharSet p => char_matcher p x c
  | InputStart => if Nat.eqb (endIndex x) 0 then c x else None
  | InputEnd => match remaining x with [] => c x | _ :: _ => None end
  | Seq r1 r2 => matcher r1 x (fun y => matcher r2 y c)
  | Disjunction r1 r2 => or_else (matcher r1 x c) (matcher r2 x c)
  | Plus r1 =>
      matcher r1 (clear_captures r1 x)
        (fun y =>
           repeat_matcher (matcher r1) (clear_captures r1)
             (List.length (remaining y)) y c)
  | Optional r1 =>
      or_else
        (matcher r1 (clear_captures r1 x)
           (fun y => if Nat.eqb (endIndex y) (endIndex x) then None else c y))
        (c x)
  | Group i r1 =>
      matcher r1 x
        (fun y =>
           c (mkState (endIndex y) (remaining y)
                (set_capture i
                   (firstn (endIndex y - endIndex x) (remaining x))
                   (captures y))))
  end.

(** The array returned by [exec] and [String.prototype.match]: element 0 is
    the matched text, element [i] the [i]-th capture or [undefined]. *)
Definition MatchArray : Type := list (option string).

Definition match_array (lastIndex : nat) (input : list ascii) (y : MatchState)
  : MatchArray :=
  Some (string_of_list_ascii (firstn (endIndex y - lastIndex) input))
    :: map (option_map string_of_list_ascii) (captures y).

(** RegExpBuiltinExec for a pattern without the [g] and [y] flags: the match
    is tried at index 0, then 1, ... up to the length of the input. *)
Fixpoint exec_from (r : Regex) (ngroups : nat) (lastIndex : nat)
  (input : list ascii) : option MatchArray :=
  match matcher r (mkState lastIndex input (repeat None ngroups)) Some with
  | Some y => Some (match_array lastIndex input y)
  | None =>
      match input with
      | [] => None
      | _ :: input' => exec_from r ngroups (S lastIndex) input'
      end
  end.

Definition exec (r : Regex) (s : string) : option MatchArray :=
  exec_from r (List.length (groups_of r)) 0 (list_ascii_of_string s).

(** [match?.[i]] and [match[i]] *)
Definition at_index (m : MatchArray) (i : nat) : option string :=
  nth i m None.

(** A run of literal characters. *)
Fixpoint lit (s : string) : Regex :=
  match s with
  | EmptyString => Empty
  | String ch s' => Seq (Char ch) (lit s')
  end.

(** A sequence of terms. *)
Fixpoint seq (rs : list Regex) : Regex :=
  match rs with
  | [] => Empty
  | r :: rs' => Seq r (seq rs')
  end.

(** ** Media operations *)

Inductive ImageSize : Type :=
| thumb
| small
| medium
| large
| orig.

Definition size_name (name : ImageSize) : string :=
  match name with
  | thumb => "thumb"
  | small => "small"
  | medium => "medium"
  | large => "large"
  | orig => "orig"
  end.

(** [`${v}`] for a destructured capture *)
Definition interpolate (v : option string) : string :=
  match v with
  | Some s => s
  | None => "undefined"
  end.

(** [https?:\/\/pbs\.twimg\.com\/media\/.+], the inside of the first group
    of the pattern of [formatTwitterImage] *)
Definition media_address : Regex :=
  seq [ lit "http"; Optional (Char "s"); lit "://pbs.twimg.com/media/";
        Plus Dot ].

(** [/^(https?:\/\/pbs\.twimg\.com\/media\/.+)\.(\w+)$/] *)
Definition twitter_image_regex : Regex :=
  seq [ InputStart; Group 1 media_address; Char "."; Group 2 (Plus WordChar);
        InputEnd ].

(** An omitted [name] ([None]) takes the default ['medium']. *)
Definition formatTwitterImage (imgUrl : string) (name : option ImageSize)
  : string :=
  let name := name ?? medium in
  match exec twitter_image_regex imgUrl with
  | None => (imgUrl ++ "?name=" ++ size_name name)%string
  | Some m =>
      let url := at_index m 1 in
      let ext := at_index m 2 in
      (interpolate url ++ "?format=" ++ interpolate ext
         ++ "&name=" ++ size_name name)%string
  end.

(** [variant.bitrate && variant.bitrate > other] *)
Definition bitrate_exceeds (b : option N) (other : N) : bool :=
  match b with
  | Some n => (negb (N.eqb n 0) && N.ltb other n)%bool
  | None => false
  end.

Definition getMediaOriginalUrl (media : Media) : string :=
  if (String.eqb (type media) "video"
      || String.eqb (type media) "animated_gif")%bool
  then
    let variants := (video_info media ?. (fun v => Some (variants v))) ?? [] in
    let maxBitrateVariant :=
      fold_left
        (fun maxBitrateVariant variant =>
           if bitrate_exceeds (bitrate variant)
                ((maxBitrateVariant ?. bitrate) ?? 0%N)
           then Some variant
           else maxBitrateVariant)
        variants (nth_error variants 0) in
    (maxBitrateVariant ?. (fun v => Some (url v))) ?? media_url_https media
  else formatTwitterImage (media_url_https media) (Some orig).

(** The three alternatives of the pattern of [getFileExtensionFromUrl]:
    [format=(\w+)], [\.(\w+)$] and [\.(\w+)\?.+$]. *)
Definition format_alternative : Regex :=
  seq [ lit "format="; Group 1 (Plus WordChar) ].

Definition trailing_alternative : Regex :=
  seq [ Char "."; Group 2 (Plus WordChar); InputEnd ].

Definition query_alternative : Regex :=
  seq [ Char "."; Group 3 (Plus WordChar); Char "?"; Plus Dot; InputEnd ].

(** [/format=(\w+)|\.(\w+)$|\.(\w+)\?.+$/] *)
Definition file_extension_regex : Regex :=
  Disjunction format_alternative
    (Disjunction trailing_alternative query_alternative).

Definition getFileExtensionFromUrl (url : string) : string :=
  let m := exec file_extension_regex url in
  (or_else (m ?. (fun a => at_index a 1))
     (or_else (m ?. (fun a => at_index a 2)) (m ?. (fun a => at_index a 3))))
    ?? "jpg".

(** The specification's reading of [getFileExtensionFromUrl]: three
    attempts made one after the other, each over the whole URL. *)
Definition fileExtension_in_order (url : string) : string :=
  let format_param := seq [ lit "format="; Group 1 (Plus WordChar) ] in
  let trailing := seq [ Char "."; Group 1 (Plus WordChar); InputEnd ] in
  let before_query :=
    seq [ Char "."; Group 1 (Plus WordChar); Char "?"; Plus Dot; InputEnd ] in
  let attempt r := exec r url ?. (fun a => at_index a 1) in
  (or_else (attempt format_param)
     (or_else (attempt trailing) (attempt before_query))) ?? "jpg".

(** ** Response decoder *)

Record TimelineContent (P : Type) : Type := mkContent {
  entryType : string;
  itemContent : option P
}.

Record TimelineEntry (P : Type) : Type := mkEntry {
  entryId : string;
  content : TimelineContent P
}.

Record TimelineInstruction (P : Type) : Type := mkInstruction {
  instruction_type : string;               (* [type] *)
  entries : option (list (TimelineEntry P))
}.

Record XMLHttpRequest : Type := mkXHR {
  responseText : string
}.

Definition isTimelineEntryItem {P : Type} (entry : TimelineEntry P) : bool :=
  String.eqb (entryType (content entry)) "TimelineTimelineItem".

Definition isTimelineEntryModule {P : Type} (entry : TimelineEntry P) : bool :=
  String.eqb (entryType (content entry)) "TimelineTimelineModule".

Section ResponseDecoder.

(** [R] is the parsed body, [T] the record built per entry and [P] the
    payload of an item entry.  [JSON.parse] belongs to the host: [None]
    stands for its [SyntaxError]. *)
Variables R T P : Type.
Variable JSON_parse : string -> option R.
Variable extractInstructionsFromJson : R -> list (TimelineInstruction P).
Variable extractDataFromTimelineEntry : TimelineEntry P -> option T.

(** The body of the [for ... of] loop: [newData] after one more entry. *)
Definition push_entry (newData : list T) (entry : TimelineEntry P) : list T :=
  if isTimelineEntryItem entry then
    match extractDataFromTimelineEntry entry with
    | Some data => newData ++ [data]
    | None => newData
    end
  else newData.

Definition extractDataFromResponse (response : XMLHttpRequest)
  : completion (list T) :=
  json <- match JSON_parse (responseText response) with
          | Some j => Normal j
          | None => Throw SyntaxError
          end ;;
  let instructions := extractInstructionsFromJson json in
  let timelineAddEntriesInstruction :=
    find (fun i => String.eqb (instruction_type i) "TimelineAddEntries")
      instructions in
  i <- member timelineAddEntriesInstruction ;;
  es <- member (entries i) ;;
  Normal (fold_left push_entry es []).

End ResponseDecoder.

(** ** Vocabulary of the specification *)

Definition VISIBILITY : string := "TweetWithVisibilityResults".

(** A payload of the declared type [Tweet | TweetWithVisibilityResults]:
    a tweet, or a wrapper around a tweet, each with its own tag. *)
Definition is_tweet (t : Tweet) : Prop := __typename t = "Tweet".

Definition is_tweet_payload (x : TweetValue) : Prop :=
  match x with
  | TweetObject t => is_tweet t
  | VisibilityObject w => wrapper_typename w = VISIBILITY /\ is_tweet (tweet w)
  | JsNull | JsUndefined => False
  end.

(** The "real" tweet of [t]: the target of its retweeted-status reference
    when that reference has a result, [t] itself when there is no reference
    or the reference has no result. *)
Inductive RealTweet (t : Tweet) : Tweet -> Prop :=
| real_self_no_reference :
    retweeted_status_result (legacy t) = None ->
    RealTweet t t
| real_self_no_result r :
    retweeted_status_result (legacy t) = Some r ->
    truthy (result r) = false ->
    RealTweet t t
| real_target r target :
    retweeted_status_result (legacy t) = Some r ->
    result r = TweetObject target ->
    is_tweet target ->
    RealTweet t target
| real_wrapped_target r w :
    retweeted_status_result (legacy t) = Some r ->
    result r = VisibilityObject w ->
    wrapper_typename w = VISIBILITY ->
    RealTweet t (tweet w).

(** The media list of a tweet taken by itself: extended entities first,
    legacy entities next, the empty list last. *)
Definition own_media (t : Tweet) : list Media :=
  match extended_entities (legacy t) with
  | Some {| media := Some m |} => m
  | _ =>
      match media (entities (legacy t)) with
      | Some m => m
      | None => []
      end
  end.

(** The record at the end of [core.user_results.result.legacy]. *)
Definition PathTo (t : Tweet) (l : UserLegacy) : Prop :=
  exists c ur u,
    core t = Some c /\ user_results c = Some ur /\
    user_result ur = Some u /\ user_legacy u = Some l.

(** A missing bitrate counts as 0. *)
Definition effective_bitrate (v : Variant) : N :=
  match bitrate v with
  | Some n => n
  | None => 0%N
  end.

Definition variant_list (m : Media) : list Variant :=
  match video_info m with
  | Some vi => variants vi
  | None => []
  end.

(** [v], at index [i] of [l], has the greatest bitrate of [l] and is the
    first variant of [l] to have it. *)
Definition FirstGreatest (l : list Variant) (i : nat) (v : Variant) : Prop :=
  nth_error l i = Some v /\
  (forall j v', nth_error l j = Some v' ->
                (effective_bitrate v' <= effective_bitrate v)%N) /\
  (forall j v', j < i -> nth_error l j = Some v' ->
                (effective_bitrate v' < effective_bitrate v)%N).

(** The body of the scan over the variants. *)
Definition keep_greater (cur : option Variant) (v : Variant) : option Variant :=
  if bitrate_exceeds (bitrate v) ((cur ?. bitrate) ?? 0%N)
  then Some v
  else cur.

(** [l1] is [l2] with some elements left out, the others in their order. *)
Inductive Subsequence {A : Type} : list A -> list A -> Prop :=
| sub_nil : Subsequence [] []
| sub_skip a l1 l2 : Subsequence l1 l2 -> Subsequence l1 (a :: l2)
| sub_keep a l1 l2 : Subsequence l1 l2 -> Subsequence (a :: l1) (a :: l2).

Definition is_add_entries {P : Type} (i : TimelineInstruction P) : Prop :=
  instruction_type i = "TimelineAddEntries".

(** What the loop of [extractDataFromResponse] leaves in [newData], entry
    by entry. *)
Fixpoint extracted {T P : Type} (f : TimelineEntry P -> option T)
  (es : list (TimelineEntry P)) : list T :=
  match es with
  | [] => []
  | e :: es' =>
      if isTimelineEntryItem e then
        match f e with
        | Some data => data :: extracted f es'
        | None => extracted f es'
        end
      else extracted f es'
  end.

(** *** What a pattern matches

    [Matches r x y]: the pattern [r], entered in state [x], can be left in
    state [y].  The relation says which matches exist; the order in which
    [matcher] tries them is not part of it. *)

Inductive Star (R : MatchState -> MatchState -> Prop)
  : MatchState -> MatchState -> Prop :=
| star_done x : Star R x x
| star_more x y z : R x y -> Star R y z -> Star R x z.

Definition step_char (p : ascii -> bool) (x y : MatchState) : Prop :=
  exists ch rest,
    remaining x = ch :: rest /\ p ch = true /\
    y = mkState (S (endIndex x)) rest (captures x).

Fixpoint Matches (r : Regex) (x y : MatchState) : Prop :=
  match r with
  | Empty => y = x
  | CharSet p => step_char p x y
  | InputStart => endIndex x = 0 /\ y = x
  | InputEnd => remaining x = [] /\ y = x
  | Seq r1 r2 => exists m, Matches r1 x m /\ Matches r2 m y
  | Disjunction r1 r2 => Matches r1 x y \/ Matches r2 x y
  | Plus r1 =>
      exists m,
        Matches r1 (clear_captures r1 x) m /\
        Star (fun a b => Matches r1 (clear_captures r1 a) b /\
                         endIndex b <> endIndex a) m y
  | Optional r1 =>
      (Matches r1 (clear_captures r1 x) y /\ endIndex y <> endIndex x)
      \/ y = x
  | Group i r1 =>
      exists m,
        Matches r1 x m /\
        y = mkState (endIndex m) (remaining m)
              (set_capture i (firstn (endIndex m - endIndex x) (remaining x))
                 (captures m))
  end.

(** [y] is [x] after the characters [w], the captures untouched. *)
Definition Consumes (x : MatchState) (w : list ascii) (y : MatchState) : Prop :=
  remaining x = w ++ remaining y /\
  endIndex y = endIndex x + List.length w /\
  captures y = captures x.

(** The longest prefix of [l] made of characters of [p], and what is left. *)
Fixpoint take_run (p : ascii -> bool) (l : list ascii) : list ascii :=
  match l with
  | ch :: l' => if p ch then ch :: take_run p l' else []
  | [] => []
  end.

Fixpoint drop_run (p : ascii -> bool) (l : list ascii) : list ascii :=
  match l with
  | ch :: l' => if p ch then drop_run p l' else l
  | [] => []
  end.

(** [rest] does not go on with a character of [p]. *)
Definition ends_run (p : ascii -> bool) (rest : list ascii) : Prop :=
  match rest with
  | [] => True
  | ch :: _ => p ch = false
  end.

(** The captures of the three groups before a match is tried. *)
Definition no_captures : Captures := [None; None; None].

(** A string as the list of its characters, and back. *)
Abbreviation chars := list_ascii_of_string.
Abbreviation str := string_of_list_ascii.
Abbreviation host_path := (chars "://pbs.twimg.com/media/").

(** *** Shapes of URLs *)

Definition all_chars (p : ascii -> bool) (s : string) : Prop :=
  forallb p (list_ascii_of_string s) = true.

(** A non-empty run of word characters, [\w+]. *)
Definition word (w : string) : Prop :=
  w <> "" /\ all_chars is_word_char w.

(** What follows a maximal run of word characters. *)
Definition ends_word (rest : string) : Prop :=
  match rest with
  | EmptyString => True
  | String ch _ => is_word_char ch = false
  end.

(** [ExtensionAt s ext]: the text [s] starts with one of the three forms
    and [ext] is the extension it names: [format=<ext>]; [.<ext>] up to the
    end; [.<ext>?] and a rest, not empty and without line terminator, up to
    the end. *)
Inductive ExtensionAt : string -> string -> Prop :=
| at_format w rest :
    word w -> ends_word rest ->
    ExtensionAt ("format=" ++ w ++ rest)%string w
| at_trailing w :
    word w ->
    ExtensionAt ("." ++ w)%string w
| at_query w q :
    word w -> q <> "" -> all_chars not_line_terminator q ->
    ExtensionAt ("." ++ w ++ "?" ++ q)%string w.

(** [url] is [base.ext] with [base] an address of the media host,
    [http(s)://pbs.twimg.com/media/<body>], and [ext] a file extension. *)
Definition MediaUrl (url base ext : string) : Prop :=
  exists scheme body,
    (scheme = "http" \/ scheme = "https") /\
    base = (scheme ++ "://pbs.twimg.com/media/" ++ body)%string /\
    body <> "" /\ all_chars not_line_terminator body /\
    word ext /\
    url = (base ++ "." ++ ext)%string.

(** ** Sample data *)

Definition sample_entities : Entities := mkEntities None.

Definition sample_tweet : Tweet :=
  mkTweet "Tweet" None (mkLegacy "short" None None sample_entities) None None.

Definition sample_wrapper : TweetValue :=
  VisibilityObject (mkVisibility VISIBILITY sample_tweet).

Definition two_media : list Media :=
  [ mkMedia "photo" "https://pbs.twimg.com/media/A.jpg" None;
    mkMedia "video" "https://pbs.twimg.com/media/B.jpg" None ].

Definition retweet_target : Tweet :=
  mkTweet "Tweet" None
    (mkLegacy "target" None (Some (mkEntities (Some two_media)))
       (mkEntities (Some two_media)))
    None None.

Definition retweet_wrapper : Tweet :=
  mkTweet "Tweet" None
    (mkLegacy "RT" (Some (mkTweetResult (TweetObject retweet_target))) None
       (mkEntities (Some [])))
    None None.

Definition sample_user (name : string) : Core :=
  mkCore (Some (mkUserResults (Some (mkUser (Some (mkUserLegacy (Some name))))))).

Definition tweet_with_author : Tweet :=
  mkTweet "Tweet" (Some (sample_user "jack"))
    (mkLegacy "short" None None sample_entities) None None.

(** A tweet with a [core] that has no [user_results]. *)
Definition tweet_without_user : Tweet :=
  mkTweet "Tweet" (Some (mkCore None))
    (mkLegacy "short" None None sample_entities) None None.

Definition no_sinks : Sinks := mkSinks [] [].

Definition three_variants : list Variant :=
  [ mkVariant (Some 800%N) "a"; mkVariant (Some 2000%N) "b";
    mkVariant (Some 1200%N) "c" ].

Definition sample_video : Media :=
  mkMedia "video" "https://pbs.twimg.com/ext_tw_video_thumb/1/pu/img/x.jpg"
    (Some (mkVideoInfo three_variants)).

Definition sample_entries : list (TimelineEntry string) :=
  [ mkEntry "tweet-1" (mkContent "TimelineTimelineItem" (Some "one"));
    mkEntry "cursor-top" (mkContent "TimelineTimelineCursor" None);
    mkEntry "tweet-2" (mkContent "TimelineTimelineItem" None);
    mkEntry "tweet-3" (mkContent "TimelineTimelineItem" (Some "three")) ].

Definition sample_instructions : list (TimelineInstruction string) :=
  [ mkInstruction "TimelineClearCache" None;
    mkInstruction "TimelineAddEntries" (Some sample_entries) ].

Definition other_instructions : list (TimelineInstruction string) :=
  [ mkInstruction "TimelineClearCache" None;
    mkInstruction "TimelineTerminateTimeline" None ].

(** A host parser that knows one body. *)
Definition sample_parse (body : string)
  : option (list (TimelineInstruction string)) :=
  if String.eqb body "{}" then Some sample_instructions
  else if String.eqb body "[]" then Some other_instructions
  else None.

Definition sample_extractor (e : TimelineEntry string) : option string :=
  itemContent (content e).

(** ** Further extractors and classifiers of the file *)

(** The content of a tweet item: [itemContent] of static type
    [TimelineTweet]. *)
Record TimelineTweet : Type := mkTimelineTweet {
  tweet_typename : string;                 (* [__typename] *)
  tweet_results : TweetResult Tweet
}.

Definition extractTimelineTweet (itemContent : TimelineTweet) : TweetValue :=
  extractTweetWithVisibility (result (tweet_results itemContent)).

(** The payloads of item entries carry a [__typename]. *)
Class HasTypename (P : Type) : Type :=
  item_typename : P -> string.

#[export] Instance TimelineTweet_typename : HasTypename TimelineTweet :=
  tweet_typename.

(** [s.startsWith(p)] *)
Definition startsWith (s p : string) : bool := String.prefix p s.

(** [a && b] where evaluating [b] may throw *)
Definition and_then (a : bool) (b : completion bool) : completion bool :=
  if a then b else Normal false.

(** [entry.content.itemContent.__typename === tag] *)
Definition item_tagged {P : Type} `{HasTypename P} (entry : TimelineEntry P)
  (tag : string) : completion bool :=
  c <- member (itemContent (content entry)) ;;
  Normal (String.eqb (item_typename c) tag).

Definition isTimelineEntryTweet {P : Type} `{HasTypename P}
  (entry : TimelineEntry P) : completion bool :=
  and_then (isTimelineEntryItem entry)
    (and_then (startsWith (entryId entry) "tweet-")
       (item_tagged entry "TimelineTweet")).

Definition isTimelineEntryUser {P : Type} `{HasTypename P}
  (entry : TimelineEntry P) : completion bool :=
  and_then (isTimelineEntryItem entry)
    (and_then (startsWith (entryId entry) "user-")
       (item_tagged entry "TimelineUser")).

(** *** [String.prototype.replace] with a pattern *)

(** RegExpBuiltinExec again, keeping the index at which the match starts and
    the final state of the matcher. *)
Fixpoint search_from (r : Regex) (ngroups : nat) (lastIndex : nat)
  (input : list ascii) : option (nat * MatchState) :=
  match matcher r (mkState lastIndex input (repeat None ngroups)) Some with
  | Some y => Some (lastIndex, y)
  | None =>
      match input with
      | [] => None
      | _ :: input' => search_from r ngroups (S lastIndex) input'
      end
  end.

(** [s.replace(r, replacement)] for a pattern without the [g] flag: the text
    before the first match, the replacement computed from the match array,
    the text after the match; [s] itself when there is no match. *)
Definition replace (r : Regex) (s : string) (replacement : MatchArray -> string)
  : string :=
  let input := chars s in
  match search_from r (List.length (groups_of r)) 0 input with
  | None => s
  | Some (position, y) =>
      let m := match_array position (skipn position input) y in
      (str (firstn position input) ++ replacement m
         ++ str (skipn (endIndex y) input))%string
  end.

(** [(jpe?g|png|gif)] *)
Definition image_extension : Regex :=
  Disjunction (seq [ lit "jp"; Optional (Char "e"); Char "g" ])
    (Disjunction (lit "png") (lit "gif")).

(** [/_normal\.(jpe?g|png|gif)$/] *)
Definition profile_image_regex : Regex :=
  seq [ lit "_normal"; Char "."; Group 1 image_extension; InputEnd ].

(** The replacement ['.$1']; a capture that is not set expands to the empty
    string. *)
Definition dot_capture (m : MatchArray) : string :=
  ("." ++ (at_index m 1 ?? ""))%string.

Definition getProfileImageOriginalUrl (url : string) : string :=
  replace profile_image_regex url dot_capture.

(** *** Vocabulary *)

(** The extensions [getProfileImageOriginalUrl] knows. *)
Definition ImageExtension (ext : string) : Prop :=
  ext = "jpg" \/ ext = "jpeg" \/ ext = "png" \/ ext = "gif".

Definition ImageExtensionChars (ext : list ascii) : Prop :=
  ext = chars "jpg" \/ ext = chars "jpeg" \/ ext = chars "png"
  \/ ext = chars "gif".

Abbreviation normal_suffix := (chars "_normal.").

(** The characters of a media key: letters, digits, [_] and [-]. *)
Definition is_key_char (c : ascii) : bool :=
  (is_word_char c || Ascii.eqb c "-")%bool.

(** [c] does not occur in [s]. *)
Definition without (c : ascii) (s : string) : Prop :=
  ~ In c (chars s).

(** Neither a dot nor a slash. *)
Definition inside_segment (c : ascii) : bool :=
  (negb (Ascii.eqb c ".") && negb (Ascii.eqb c "/"))%bool.

Definition not_question_mark (c : ascii) : bool :=
  negb (Ascii.eqb c "?").

(** [scheme://pbs.twimg.com/media/key] *)
Definition media_base (scheme key : string) : string :=
  (scheme ++ "://pbs.twimg.com/media/" ++ key)%string.

Definition sample_photo : Media :=
  mkMedia "photo" (media_base "https" "F1aT_M9-aAAEgJwi" ++ "." ++ "jpg") None.

Definition item_entry (id payload : string) : TimelineEntry TimelineTweet :=
  mkEntry id
    (mkContent "TimelineTimelineItem"
       (Some (mkTimelineTweet payload (mkTweetResult sample_wrapper)))).

(** A second instruction tagged ['TimelineAddEntries'], after the first. *)
Definition later_instructions : list (TimelineInstruction string) :=
  [ mkInstruction "TimelineAddEntries"
      (Some [ mkEntry "tweet-9"
                (mkContent "TimelineTimelineItem" (Some "nine")) ]) ].

Definition module_entries : list (TimelineEntry string) :=
  [ mkEntry "conversationthread-1" (mkContent "TimelineTimelineModule" (Some "a"));
    mkEntry "profile-conversation-2" (mkContent "TimelineTimelineModule" None) ].

(** A host parser that knows three bodies. *)
Definition longer_parse (body : string)
  : option (list (TimelineInstruction string)) :=
  if String.eqb body "{}" then Some sample_instructions
  else if String.eqb body "{more}"
       then Some (sample_instructions ++ later_instructions)
  else if String.eqb body "{modules}"
       then Some [ mkInstruction "TimelineAddEntries" (Some module_entries) ]
  else None.

(** A retweet whose result is an object that is no tweet and carries
    another tag. *)
Definition untagged_retweet : Tweet :=
  mkTweet "Tweet" None
    (mkLegacy "RT"
       (Some (mkTweetResult
                (VisibilityObject (mkVisibility "TweetTombstone" sample_tweet))))
       None (mkEntities (Some [])))
    None None.

Definition sample_gif : Media :=
  mkMedia "animated_gif" "https://pbs.twimg.com/tweet_video_thumb/x.jpg"
    (Some (mkVideoInfo
             [ mkVariant (Some 0%N) "https://video.twimg.com/tweet_video/x.mp4";
               mkVariant None "https://video.twimg.com/tweet_video/y.mp4" ])).

(** ** Tweet normalizer *)

Lemma strict_eq_true (a : option string) (b : string) :
  strict_eq a b = true <-> a = Some b.
Proof.
  destruct a as [s|]; simpl.
  - rewrite String.eqb_eq. split; congruence.
  - split; discriminate.
Qed.

Lemma strict_eq_false (a : option string) (b : string) :
  strict_eq a b = false <-> a <> Some b.
Proof.
  rewrite <- strict_eq_true. destruct (strict_eq a b); split; congruence.
Qed.

Lemma unwrap_other (x : TweetValue) :
  typename_of x <> Some VISIBILITY -> extractTweetWithVisibility x = x.
Proof.
  intros H. unfold extractTweetWithVisibility.
  apply strict_eq_false in H. unfold VISIBILITY in H. now rewrite H.
Qed.

Lemma unwrap_tagged (x : TweetValue) :
  typename_of x = Some VISIBILITY -> extractTweetWithVisibility x = tweet_of x.
Proof.
  intros H. unfold extractTweetWithVisibility.
  apply strict_eq_true in H. unfold VISIBILITY in H. now rewrite H.
Qed.

Lemma typename_dec (x : TweetValue) :
  typename_of x = Some VISIBILITY \/ typename_of x <> Some VISIBILITY.
Proof.
  destruct (strict_eq (typename_of x) VISIBILITY) eqn:E.
  - left. now apply strict_eq_true.
  - right. now apply strict_eq_false.
Qed.

(** Unwrapping twice is unwrapping once as soon as the tweet inside a
    wrapper is not tagged as a wrapper itself. *)
Lemma unwrap_twice (x : TweetValue) :
  (forall w, x = VisibilityObject w -> __typename (tweet w) <> VISIBILITY) ->
  extractTweetWithVisibility (extractTweetWithVisibility x)
  = extractTweetWithVisibility x.
Proof.
  intros Hin. destruct (typename_dec x) as [Ht|Ht].
  - rewrite (unwrap_tagged x Ht).
    destruct x as [| |t|w]; simpl in *; try reflexivity.
    apply unwrap_other. simpl. intros E. injection E. now apply Hin.
  - now rewrite !(unwrap_other x Ht).
Qed.

(** C7: on a payload that is a tweet or a visibility-wrapped tweet,
    [extractTweetWithVisibility] applied twice gives what it gives applied
    once. *)
Theorem extractTweetWithVisibility_idempotent (x : TweetValue) :
  is_tweet_payload x ->
  extractTweetWithVisibility (extractTweetWithVisibility x)
  = extractTweetWithVisibility x.
Proof.
  intros Hx. apply unwrap_twice. intros w ->. simpl in Hx.
  destruct Hx as [_ Ht]. unfold is_tweet in Ht. rewrite Ht. discriminate.
Qed.

Lemma extractTweetWithVisibility_idempotent_witness :
  extractTweetWithVisibility (extractTweetWithVisibility sample_wrapper)
  = extractTweetWithVisibility sample_wrapper.
Proof.
  apply (extractTweetWithVisibility_idempotent sample_wrapper).
  simpl. split; reflexivity.
Defined.

(** C10: [extractTweetWithVisibility] returns [null], [undefined] and every
    input whose [__typename] is not ['TweetWithVisibilityResults'] as they
    are; an input it changes carries that tag, and what it returns for a
    tagged input is the input's [tweet] property, the inner tweet of a
    wrapper. *)
Theorem extractTweetWithVisibility_total :
  extractTweetWithVisibility JsNull = JsNull /\
  extractTweetWithVisibility JsUndefined = JsUndefined /\
  (forall x, typename_of x <> Some VISIBILITY ->
             extractTweetWithVisibility x = x) /\
  (forall x, extractTweetWithVisibility x <> x ->
             typename_of x = Some VISIBILITY) /\
  (forall x, typename_of x = Some VISIBILITY ->
             extractTweetWithVisibility x = tweet_of x) /\
  (forall w, wrapper_typename w = VISIBILITY ->
             extractTweetWithVisibility (VisibilityObject w)
             = TweetObject (tweet w)).
Proof.
  repeat split.
  - apply unwrap_other.
  - intros x Hx. destruct (typename_dec x) as [Ht|Ht]; [assumption|].
    exfalso. apply Hx. now apply unwrap_other.
  - apply unwrap_tagged.
  - intros w Hw. now rewrite unwrap_tagged by (simpl; congruence).
Qed.

Lemma extractTweetWithVisibility_total_witness :
  extractTweetWithVisibility (TweetObject sample_tweet) = TweetObject sample_tweet
  /\ extractTweetWithVisibility sample_wrapper = TweetObject sample_tweet.
Proof.
  destruct extractTweetWithVisibility_total as (_ & _ & Hother & _ & _ & Hwrap).
  split.
  - apply (Hother (TweetObject sample_tweet)). simpl. discriminate.
  - apply (Hwrap (mkVisibility VISIBILITY sample_tweet)). reflexivity.
Defined.

(** C6: the text of a tweet with a note extension is the note's text,
    whatever the two texts are; the text of a tweet without one is the
    legacy full text. *)
Theorem extractTweetFullText_precedence :
  (forall ty c l q note,
      extractTweetFullText (mkTweet ty c l (Some note) q)
      = text (note_result (note_tweet_results note))) /\
  (forall ty c l q,
      extractTweetFullText (mkTweet ty c l None q) = full_text l) /\
  (forall ty c q rt ee e,
      extractTweetFullText
        (mkTweet ty c (mkLegacy "short" rt ee e)
           (Some (mkNoteTweet (mkNoteTweetResults
                                 (mkNoteTweetResult "much longer text..."))))
           q)
      = "much longer text...") /\
  (forall ty c q rt ee e legacy_text,
      extractTweetFullText
        (mkTweet ty c (mkLegacy legacy_text rt ee e) None q)
      = legacy_text) /\
  (forall ty c q rt ee e legacy_text,
      extractTweetFullText
        (mkTweet ty c (mkLegacy legacy_text rt ee e)
           (Some (mkNoteTweet (mkNoteTweetResults (mkNoteTweetResult ""))))
           q)
      = "").
Proof.
  repeat split.
Qed.

(** ** Media list *)

Lemma media_of_legacy (t : Tweet) :
  match extended_entities (legacy t) ?. media with
  | Some m => Normal m
  | None => Normal (media (entities (legacy t)) ?? [])
  end = Normal (own_media t).
Proof.
  unfold own_media.
  destruct (extended_entities (legacy t)) as [[[m|]]|]; simpl;
    try reflexivity;
    destruct (media (entities (legacy t))); reflexivity.
Qed.

Lemma extractTweetMedia_of_real (t real : Tweet) :
  defined (extractRetweetedTweet t) ?? TweetObject t = TweetObject real ->
  extractTweetMedia t = Normal (own_media real).
Proof.
  intros H. unfold extractTweetMedia. rewrite H. simpl.
  apply media_of_legacy.
Qed.

(** C5: [extractTweetMedia] returns the media list of the real tweet: its
    extended-entities list when there is one, else its legacy entities list,
    else the empty list; a retweet whose own list is empty gives the two
    media of its target. *)
Theorem extractTweetMedia_real_tweet :
  (forall t real,
      RealTweet t real -> extractTweetMedia t = Normal (own_media real)) /\
  (forall t m ee,
      extended_entities (legacy t) = Some ee -> media ee = Some m ->
      own_media t = m) /\
  (forall t m,
      extended_entities (legacy t) ?. media = None ->
      media (entities (legacy t)) = Some m ->
      own_media t = m) /\
  (forall t,
      extended_entities (legacy t) ?. media = None ->
      media (entities (legacy t)) = None ->
      own_media t = []) /\
  extractTweetMedia retweet_wrapper = Normal two_media.
Proof.
  split; [|split; [|split; [|split]]].
  - intros t real H. apply extractTweetMedia_of_real.
    unfold extractRetweetedTweet.
    destruct H as [H | r H Hr | r target H Hr Ht | r w H Hr Hw]; rewrite H.
    + reflexivity.
    + rewrite Hr. reflexivity.
    + rewrite Hr. simpl. unfold is_tweet in Ht.
      rewrite unwrap_other by (simpl; rewrite Ht; discriminate).
      reflexivity.
    + rewrite Hr. simpl.
      rewrite unwrap_tagged by (simpl; congruence). reflexivity.
  - intros t m ee Hee Hm. unfold own_media. rewrite Hee.
    destruct ee as [mm]. simpl in Hm. now rewrite Hm.
  - intros t m Hee Hm. unfold own_media.
    destruct (extended_entities (legacy t)) as [[[mm|]]|]; simpl in Hee;
      try discriminate; now rewrite Hm.
  - intros t Hee Hm. unfold own_media.
    destruct (extended_entities (legacy t)) as [[[mm|]]|]; simpl in Hee;
      try discriminate; now rewrite Hm.
  - reflexivity.
Qed.

Lemma extractTweetMedia_real_tweet_witness :
  extractTweetMedia retweet_wrapper = Normal (own_media retweet_target).
Proof.
  apply (proj1 extractTweetMedia_real_tweet retweet_wrapper retweet_target).
  apply real_target with (r := mkTweetResult (TweetObject retweet_target));
    reflexivity.
Defined.

(** ** Screen name *)

Lemma screen_name_path_found (t : Tweet) (l : UserLegacy) :
  PathTo t l -> screen_name_path t = Normal (screen_name l).
Proof.
  intros (c & ur & u & Hc & Hur & Hu & Hl). unfold screen_name_path.
  rewrite Hc. simpl. rewrite Hur. simpl. rewrite Hu. simpl. now rewrite Hl.
Qed.

Lemma screen_name_path_missing (t : Tweet) :
  (forall l, ~ PathTo t l) -> screen_name_path t = Throw TypeError.
Proof.
  intros H. unfold screen_name_path.
  destruct (core t) as [c|] eqn:Hc; [simpl|reflexivity].
  destruct (user_results c) as [ur|] eqn:Hur; [simpl|reflexivity].
  destruct (user_result ur) as [u|] eqn:Hu; [simpl|reflexivity].
  destruct (user_legacy u) as [l|] eqn:Hl; [simpl|reflexivity].
  exfalso. apply (H l). now exists c, ur, u.
Qed.

(** C8: when one of [core], [user_results], [result], [legacy] is missing
    the failure is caught: the call completes normally with ["READ_ERROR"]
    and the logging sink has received exactly one more event; when the path
    is there the call returns what is at its end and logs nothing. *)
Theorem extractTweetUserScreenName_recovers (t : Tweet) (s : Sinks) :
  ((forall l, ~ PathTo t l) ->
   exists ev,
     extractTweetUserScreenName t s
     = (Normal (Some "READ_ERROR"),
        {| console := console s ++ [t]; logger := logger s ++ [ev] |})
     /\ log_context ev = t /\ log_error ev = TypeError) /\
  (forall l, PathTo t l ->
             extractTweetUserScreenName t s = (Normal (screen_name l), s)).
Proof.
  split.
  - intros H. unfold extractTweetUserScreenName.
    rewrite (screen_name_path_missing H). simpl.
    eexists. split; [reflexivity|]. split; reflexivity.
  - intros l H. unfold extractTweetUserScreenName.
    now rewrite (screen_name_path_found H).
Qed.

Lemma extractTweetUserScreenName_recovers_witness :
  (exists ev,
      extractTweetUserScreenName tweet_without_user no_sinks
      = (Normal (Some "READ_ERROR"),
         {| console := [tweet_without_user]; logger := [ev] |})
      /\ log_context ev = tweet_without_user /\ log_error ev = TypeError) /\
  extractTweetUserScreenName tweet_with_author no_sinks
  = (Normal (Some "jack"), no_sinks).
Proof.
  split.
  - apply (proj1 (extractTweetUserScreenName_recovers tweet_without_user no_sinks)).
    intros l (c & ur & u & Hc & Hur & _). simpl in Hc.
    injection Hc as <-. discriminate Hur.
  - apply (proj2 (extractTweetUserScreenName_recovers tweet_with_author no_sinks)
             (mkUserLegacy (Some "jack"))).
    now eexists _, _, _.
Defined.

(** ** Original URL of a video *)

Lemma bitrate_exceeds_spec (v cur : Variant) :
  bitrate_exceeds (bitrate v) (effective_bitrate cur) = true
  <-> (effective_bitrate cur < effective_bitrate v)%N.
Proof.
  unfold bitrate_exceeds, effective_bitrate at 3.
  destruct (bitrate v) as [n|].
  - rewrite andb_true_iff, negb_true_iff, N.eqb_neq, N.ltb_lt. lia.
  - split; [discriminate | lia].
Qed.

Lemma keep_greater_some (cur v : Variant) :
  keep_greater (Some cur) v
  = if (effective_bitrate cur <? effective_bitrate v)%N then Some v else Some cur.
Proof.
  unfold keep_greater.
  assert (E : (Some cur ?. bitrate) ?? 0%N = effective_bitrate cur).
  { unfold effective_bitrate. simpl. now destruct (bitrate cur). }
  rewrite E.
  destruct (effective_bitrate cur <? effective_bitrate v)%N eqn:L.
  - apply N.ltb_lt, bitrate_exceeds_spec in L. now rewrite L.
  - destruct (bitrate_exceeds (bitrate v) (effective_bitrate cur)) eqn:B;
      [|reflexivity].
    apply bitrate_exceeds_spec, N.ltb_lt in B. congruence.
Qed.

Lemma nth_error_snoc {A : Type} (l : list A) (a : A) (j : nat) (b : A) :
  nth_error (l ++ [a]) j = Some b ->
  nth_error l j = Some b \/ (j = List.length l /\ b = a).
Proof.
  intros H. destruct (Nat.lt_ge_cases j (List.length l)) as [Hlt|Hge].
  - left. now rewrite nth_error_app1 in H.
  - right. rewrite nth_error_app2 in H by assumption.
    destruct (j - List.length l) as [|k] eqn:E; simpl in H.
    + split; [lia | congruence].
    + now destruct k.
Qed.

(** The scan keeps the first greatest variant of what it has seen. *)
Lemma scan_keeps_first_greatest (vs seen : list Variant) (i : nat) (cur : Variant) :
  FirstGreatest seen i cur ->
  exists i' best,
    fold_left keep_greater vs (Some cur) = Some best /\
    FirstGreatest (seen ++ vs) i' best.
Proof.
  revert seen i cur. induction vs as [|v vs IH]; intros seen i cur Hinv.
  - exists i, cur. rewrite app_nil_r. now split.
  - simpl. rewrite keep_greater_some.
    replace (seen ++ v :: vs) with ((seen ++ [v]) ++ vs)
      by (now rewrite <- app_assoc).
    destruct Hinv as (Hi & Hmax & Hfirst).
    assert (Hlen : i < List.length seen)
      by (apply nth_error_Some; congruence).
    destruct (effective_bitrate cur <? effective_bitrate v)%N eqn:L.
    + apply N.ltb_lt in L. apply (IH (seen ++ [v]) (List.length seen) v).
      repeat split.
      * rewrite nth_error_app2, Nat.sub_diag by lia. reflexivity.
      * intros j v' Hj. apply nth_error_snoc in Hj as [Hj|[_ ->]].
        -- specialize (Hmax j v' Hj). lia.
        -- lia.
      * intros j v' Hlt Hj. rewrite nth_error_app1 in Hj by assumption.
        specialize (Hmax j v' Hj). lia.
    + apply N.ltb_ge in L. apply (IH (seen ++ [v]) i cur).
      repeat split.
      * now rewrite nth_error_app1.
      * intros j v' Hj. apply nth_error_snoc in Hj as [Hj|[_ ->]].
        -- now apply (Hmax j).
        -- assumption.
      * intros j v' Hlt Hj. rewrite nth_error_app1 in Hj by lia.
        now apply (Hfirst j).
Qed.

Lemma getMediaOriginalUrl_scan (m : Media) :
  type m = "video" \/ type m = "animated_gif" ->
  getMediaOriginalUrl m
  = (fold_left keep_greater (variant_list m) (nth_error (variant_list m) 0)
       ?. (fun v => Some (url v))) ?? media_url_https m.
Proof.
  intros H. unfold getMediaOriginalUrl.
  assert (E : (String.eqb (type m) "video"
               || String.eqb (type m) "animated_gif")%bool = true).
  { apply orb_true_iff. rewrite !String.eqb_eq. exact H. }
  rewrite E. unfold variant_list.
  destruct (video_info m); reflexivity.
Qed.

(** C4: for a video or an animated GIF, [getMediaOriginalUrl] returns the
    URL of the first variant that has the greatest bitrate, a missing
    bitrate counting as 0, and the base URL when there is no variant; on the
    variants 800/a, 2000/b, 1200/c it returns b. *)
Theorem getMediaOriginalUrl_greatest_bitrate (m : Media) :
  type m = "video" \/ type m = "animated_gif" ->
  (variant_list m = [] -> getMediaOriginalUrl m = media_url_https m) /\
  (variant_list m <> [] ->
   exists i best,
     FirstGreatest (variant_list m) i best /\
     getMediaOriginalUrl m = url best) /\
  getMediaOriginalUrl sample_video = "b".
Proof.
  intros H. rewrite (getMediaOriginalUrl_scan m H). repeat split.
  - intros ->. reflexivity.
  - intros Hne. destruct (variant_list m) as [|v0 vs]; [congruence|].
    simpl. rewrite keep_greater_some, N.ltb_irrefl.
    destruct (@scan_keeps_first_greatest vs [v0] 0 v0) as (i & best & Hf & Hb).
    + repeat split.
      * intros [|[|j]] v' Hj; simpl in Hj; try discriminate.
        injection Hj as <-. lia.
      * intros j v' Hj. lia.
    + exists i, best. split; [exact Hb|]. now rewrite Hf.
Qed.

Lemma getMediaOriginalUrl_greatest_bitrate_witness :
  exists i best,
    FirstGreatest three_variants i best /\
    getMediaOriginalUrl sample_video = url best.
Proof.
  apply (proj1 (proj2 (getMediaOriginalUrl_greatest_bitrate sample_video
                         (or_introl eq_refl)))).
  discriminate.
Defined.

(** ** Response decoder *)

Section ResponseDecoderProperties.

Variables R T P : Type.
Variable JSON_parse : string -> option R.
Variable extractInstructionsFromJson : R -> list (TimelineInstruction P).
Variable extractDataFromTimelineEntry : TimelineEntry P -> option T.

Let extract :=
  extractDataFromResponse JSON_parse extractInstructionsFromJson
    extractDataFromTimelineEntry.

Let is_tagged (i : TimelineInstruction P) : bool :=
  String.eqb (instruction_type i) "TimelineAddEntries".

Lemma loop_extracted (es : list (TimelineEntry P)) (newData : list T) :
  fold_left (push_entry extractDataFromTimelineEntry) es newData
  = newData ++ extracted extractDataFromTimelineEntry es.
Proof.
  revert newData. induction es as [|e es IH]; intros newData; simpl.
  - now rewrite app_nil_r.
  - rewrite IH. unfold push_entry.
    destruct (isTimelineEntryItem e); [|reflexivity].
    destruct (extractDataFromTimelineEntry e); [|reflexivity].
    now rewrite <- app_assoc.
Qed.

Lemma extracted_in_order (es : list (TimelineEntry P)) :
  exists kept,
    Subsequence kept es /\
    Forall2 (fun e d => isTimelineEntryItem e = true /\
                        extractDataFromTimelineEntry e = Some d)
      kept (extracted extractDataFromTimelineEntry es) /\
    (forall e, In e es -> ~ In e kept ->
               isTimelineEntryItem e = false \/
               extractDataFromTimelineEntry e = None).
Proof.
  induction es as [|e es (kept & Hsub & Hall & Hout)]; simpl.
  - exists []. repeat split; [constructor | constructor | intros e []].
  - destruct (isTimelineEntryItem e) eqn:Hitem;
      [destruct (extractDataFromTimelineEntry e) as [d|] eqn:Hd|].
    + exists (e :: kept). repeat split.
      * now constructor.
      * constructor; [now split | exact Hall].
      * intros e' [<-|Hin] Hnot; [exfalso; apply Hnot; now left|].
        apply Hout; [assumption|]. intros Hk. apply Hnot. now right.
    + exists kept. repeat split; [now constructor | exact Hall |].
      intros e' [<-|Hin] Hnot; [now right | now apply Hout].
    + exists kept. repeat split; [now constructor | exact Hall |].
      intros e' [<-|Hin] Hnot; [now left | now apply Hout].
Qed.

Lemma extracted_length (es : list (TimelineEntry P)) :
  List.length (extracted extractDataFromTimelineEntry es)
  <= List.length (filter (@isTimelineEntryItem P) es).
Proof.
  induction es as [|e es IH]; simpl; [lia|].
  destruct (isTimelineEntryItem e); [|exact IH].
  destruct (extractDataFromTimelineEntry e); simpl; lia.
Qed.

Lemma find_first (before after : list (TimelineInstruction P))
  (i : TimelineInstruction P) :
  (forall j, In j before -> ~ is_add_entries j) ->
  is_add_entries i ->
  find is_tagged (before ++ i :: after) = Some i.
Proof.
  intros Hbefore Hi. induction before as [|j before IH]; simpl.
  - unfold is_tagged. unfold is_add_entries in Hi.
    now rewrite (proj2 (String.eqb_eq _ _) Hi).
  - destruct (is_tagged j) eqn:Hj.
    + exfalso. apply (Hbefore j); [now left|].
      now apply String.eqb_eq.
    + apply IH. intros k Hk. apply Hbefore. now right.
Qed.

Lemma find_none (l : list (TimelineInstruction P)) :
  (forall j, In j l -> ~ is_add_entries j) -> find is_tagged l = None.
Proof.
  intros H. induction l as [|j l IH]; simpl; [reflexivity|].
  destruct (is_tagged j) eqn:Hj.
  - exfalso. apply (H j); [now left|]. now apply String.eqb_eq.
  - apply IH. intros k Hk. apply H. now right.
Qed.

(** C1: on a response that parses and whose first instruction tagged
    ['TimelineAddEntries'] carries the entries [es], the call returns the
    records extracted from a subsequence of [es], in the order of [es];
    the entries left out are those that are no item entries or on which
    the extractor gives nothing, and the output is no longer than the
    number of item entries. *)
Theorem extractDataFromResponse_in_order
  (response : XMLHttpRequest) (json : R)
  (before after : list (TimelineInstruction P)) (i : TimelineInstruction P)
  (es : list (TimelineEntry P)) :
  JSON_parse (responseText response) = Some json ->
  extractInstructionsFromJson json = before ++ i :: after ->
  (forall j, In j before -> ~ is_add_entries j) ->
  is_add_entries i ->
  entries i = Some es ->
  exists out kept,
    extract response = Normal out /\
    Subsequence kept es /\
    Forall2 (fun e d => isTimelineEntryItem e = true /\
                        extractDataFromTimelineEntry e = Some d)
      kept out /\
    (forall e, In e es -> ~ In e kept ->
               isTimelineEntryItem e = false \/
               extractDataFromTimelineEntry e = None) /\
    List.length out <= List.length (filter (@isTimelineEntryItem P) es).
Proof.
  intros Hparse Hinstr Hbefore Hi Hes.
  destruct (extracted_in_order es) as (kept & Hsub & Hall & Hout).
  exists (extracted extractDataFromTimelineEntry es), kept. repeat split; try assumption.
  - unfold extract, extractDataFromResponse. rewrite Hparse. simpl.
    rewrite Hinstr. fold is_tagged. rewrite (@find_first before after i Hbefore Hi).
    simpl. rewrite Hes. simpl. now rewrite loop_extracted.
  - apply extracted_length.
Qed.

(** C2: on a response that parses and whose instruction list has no
    instruction tagged ['TimelineAddEntries'], the call throws a
    [TypeError]: it returns no list, empty or partial. *)
Theorem extractDataFromResponse_missing_instruction
  (response : XMLHttpRequest) (json : R) :
  JSON_parse (responseText response) = Some json ->
  (forall j, In j (extractInstructionsFromJson json) -> ~ is_add_entries j) ->
  extract response = Throw TypeError /\
  (forall out, extract response <> Normal out).
Proof.
  intros Hparse Hnone.
  assert (E : extract response = Throw TypeError).
  { unfold extract, extractDataFromResponse. rewrite Hparse. simpl.
    fold is_tagged. now rewrite (@find_none _ Hnone). }
  split; [exact E|]. intros out. rewrite E. discriminate.
Qed.

End ResponseDecoderProperties.

Lemma extractDataFromResponse_in_order_witness :
  exists out kept,
    extractDataFromResponse sample_parse (fun j => j) sample_extractor
      (mkXHR "{}") = Normal out /\
    Subsequence kept sample_entries /\
    Forall2 (fun e d => isTimelineEntryItem e = true /\
                        sample_extractor e = Some d) kept out /\
    (forall e, In e sample_entries -> ~ In e kept ->
               isTimelineEntryItem e = false \/ sample_extractor e = None) /\
    List.length out
    <= List.length (filter (@isTimelineEntryItem string) sample_entries).
Proof.
  apply (@extractDataFromResponse_in_order _ _ _ sample_parse (fun j => j)
           sample_extractor (mkXHR "{}") sample_instructions
           [mkInstruction "TimelineClearCache" None] []
           (mkInstruction "TimelineAddEntries" (Some sample_entries))
           sample_entries).
  - reflexivity.
  - reflexivity.
  - intros j [<-|[]]. discriminate.
  - reflexivity.
  - reflexivity.
Defined.

Lemma extractDataFromResponse_missing_instruction_witness :
  extractDataFromResponse sample_parse (fun j => j) sample_extractor
    (mkXHR "[]") = Throw TypeError /\
  (forall out,
      extractDataFromResponse sample_parse (fun j => j) sample_extractor
        (mkXHR "[]") <> Normal out).
Proof.
  apply (@extractDataFromResponse_missing_instruction _ _ _ sample_parse
           (fun j => j) sample_extractor (mkXHR "[]") other_instructions).
  - reflexivity.
  - intros j [<-|[<-|[]]]; discriminate.
Defined.

(** ** The matcher finds a match exactly when there is one *)

Lemma star_consumes (R : MatchState -> MatchState -> Prop) :
  (forall a b, R a b ->
     exists w, remaining a = w ++ remaining b /\
               endIndex b = endIndex a + List.length w) ->
  forall x y, Star R x y ->
     exists w, remaining x = w ++ remaining y /\
               endIndex y = endIndex x + List.length w.
Proof.
  intros HR x y Hs. induction Hs as [x | x m y Hxm _ (w2 & Hr2 & Hi2)].
  - exists []. simpl. split; [reflexivity | lia].
  - destruct (HR _ _ Hxm) as (w1 & Hr1 & Hi1). exists (w1 ++ w2).
    rewrite <- app_assoc, <- Hr2, length_app. split; [assumption | lia].
Qed.

Lemma matches_consumes (r : Regex) :
  forall x y, Matches r x y ->
     exists w, remaining x = w ++ remaining y /\
               endIndex y = endIndex x + List.length w.
Proof.
  induction r as [ | p | | | r1 IH1 r2 IH2 | r1 IH1 r2 IH2 | r1 IH | r1 IH
                 | i r1 IH ]; simpl; intros x y H.
  - subst y. exists []. simpl. split; [reflexivity | lia].
  - destruct H as (ch & rest & Hr & _ & ->). exists [ch]. simpl.
    split; [assumption | lia].
  - destruct H as [_ ->]. exists []. simpl. split; [reflexivity | lia].
  - destruct H as [_ ->]. exists []. simpl. split; [reflexivity | lia].
  - destruct H as (m & H1 & H2).
    destruct (IH1 _ _ H1) as (w1 & Hr1 & Hi1).
    destruct (IH2 _ _ H2) as (w2 & Hr2 & Hi2).
    exists (w1 ++ w2). rewrite <- app_assoc, <- Hr2, length_app.
    split; [assumption | lia].
  - destruct H as [H|H]; [now apply IH1 | now apply IH2].
  - destruct H as (m & H1 & Hs).
    destruct (IH _ _ H1) as (w1 & Hr1 & Hi1). simpl in Hr1, Hi1.
    destruct (star_consumes
                (R := fun a b => Matches r1 (clear_captures r1 a) b /\
                                 endIndex b <> endIndex a)) with (x := m) (y := y)
      as (w2 & Hr2 & Hi2); [|assumption|].
    + intros a b [Hab _]. apply (IH _ _ Hab).
    + exists (w1 ++ w2). rewrite <- app_assoc, <- Hr2, length_app.
      split; [assumption | lia].
  - destruct H as [[H _]| ->].
    + apply (IH _ _ H).
    + exists []. simpl. split; [reflexivity | lia].
  - destruct H as (m & H1 & ->). simpl. now apply IH.
Qed.

Section Repeat.

Variable m : MatchState -> Continuation -> option MatchState.
Variable M : MatchState -> MatchState -> Prop.
Variable clear : MatchState -> MatchState.

Let Iter (a b : MatchState) : Prop :=
  M (clear a) b /\ endIndex b <> endIndex a.

Hypothesis m_sound :
  forall x c z, m x c = Some z -> exists y, M x y /\ c y = Some z.

Lemma repeat_matcher_sound (fuel : nat) :
  forall x c z,
    repeat_matcher m clear fuel x c = Some z ->
    exists y, Star Iter x y /\ c y = Some z.
Proof.
  induction fuel as [|fuel IH]; simpl; intros x c z H.
  - exists x. split; [constructor | assumption].
  - destruct (m (clear x) _) as [z1|] eqn:E; simpl in H.
    + injection H as ->. apply m_sound in E as (y1 & HM & Hk).
      destruct (Nat.eqb_spec (endIndex y1) (endIndex x)) as [|Hne];
        [discriminate|].
      apply IH in Hk as (y & Hs & Hc). exists y. split; [|assumption].
      apply star_more with (y := y1); [now split | assumption].
    + exists x. split; [constructor | assumption].
Qed.

Hypothesis m_complete :
  forall x y c z, M x y -> c y = Some z -> exists z', m x c = Some z'.

Hypothesis M_consumes :
  forall a b, M (clear a) b ->
     exists w, remaining a = w ++ remaining b /\
               endIndex b = endIndex a + List.length w.

Lemma repeat_matcher_complete (x y : MatchState) :
  Star Iter x y ->
  forall fuel c z,
    List.length (remaining x) <= fuel -> c y = Some z ->
    exists z', repeat_matcher m clear fuel x c = Some z'.
Proof.
  intros Hs. induction Hs as [x | x y1 y [HM Hprog] _ IH];
    intros fuel c z Hfuel Hc.
  - destruct fuel as [|fuel]; simpl; [eauto|].
    destruct (m (clear x) _); simpl; eauto.
  - destruct (M_consumes HM) as (w & Hw & Hi).
    rewrite Hw, length_app in Hfuel.
    destruct fuel as [|fuel]; [lia|]. simpl.
    destruct (IH fuel c z) as (z1 & Hz1); [lia | assumption |].
    destruct (@m_complete (clear x) y1
                (fun y0 => if Nat.eqb (endIndex y0) (endIndex x) then None
                           else repeat_matcher m clear fuel y0 c) z1 HM)
      as (z2 & Hz2).
    + destruct (Nat.eqb_spec (endIndex y1) (endIndex x));
        [contradiction | assumption].
    + rewrite Hz2. simpl. eauto.
Qed.

End Repeat.

(** Whatever [matcher] returns comes from a match of the pattern. *)
Lemma matcher_sound (r : Regex) :
  forall x c z, matcher r x c = Some z -> exists y, Matches r x y /\ c y = Some z.
Proof.
  induction r as [ | p | | | r1 IH1 r2 IH2 | r1 IH1 r2 IH2 | r1 IH | r1 IH
                 | i r1 IH ]; simpl; intros x c z H.
  - now exists x.
  - unfold char_matcher in H. destruct (remaining x) as [|ch rest] eqn:Hr;
      [discriminate|].
    destruct (p ch) eqn:Hp; [|discriminate].
    eexists. split; [|exact H]. now exists ch, rest.
  - destruct (Nat.eqb_spec (endIndex x) 0); [|discriminate]. now exists x.
  - destruct (remaining x) eqn:Hr; [|discriminate]. now exists x.
  - apply IH1 in H as (y1 & H1 & H). apply IH2 in H as (y & H2 & H).
    exists y. split; [now exists y1 | assumption].
  - destruct (matcher r1 x c) as [z1|] eqn:E; simpl in H.
    + injection H as ->. apply IH1 in E as (y & H1 & H). exists y. now split; [left|].
    + apply IH2 in H as (y & H2 & H). exists y. now split; [right|].
  - apply IH in H as (y1 & H1 & H).
    apply (@repeat_matcher_sound _ (Matches r1) _ IH) in H as (y & Hs & H).
    exists y. split; [now exists y1 | assumption].
  - destruct (matcher r1 (clear_captures r1 x) _) as [z1|] eqn:E; simpl in H.
    + injection H as ->. apply IH in E as (y & H1 & H).
      destruct (Nat.eqb_spec (endIndex y) (endIndex x)); [discriminate|].
      exists y. split; [now left | assumption].
    + exists x. split; [now right | assumption].
  - apply IH in H as (y & H1 & H). eexists. split; [|exact H]. now exists y.
Qed.

(** When the pattern has a match that the continuation accepts, [matcher]
    returns a result. *)
Lemma matcher_complete (r : Regex) :
  forall x y c z,
    Matches r x y -> c y = Some z -> exists z', matcher r x c = Some z'.
Proof.
  induction r as [ | p | | | r1 IH1 r2 IH2 | r1 IH1 r2 IH2 | r1 IH | r1 IH
                 | i r1 IH ]; simpl; intros x y c z H Hc.
  - subst y. eauto.
  - destruct H as (ch & rest & Hr & Hp & ->). unfold char_matcher.
    rewrite Hr, Hp. eauto.
  - destruct H as [H0 ->]. rewrite H0. simpl. eauto.
  - destruct H as [H0 ->]. rewrite H0. eauto.
  - destruct H as (y1 & H1 & H2).
    destruct (IH2 _ _ _ _ H2 Hc) as (z2 & Hz2).
    apply (IH1 x y1 (fun y0 => matcher r2 y0 c) z2 H1 Hz2).
  - destruct H as [H|H].
    + destruct (IH1 _ _ _ _ H Hc) as (z1 & ->). simpl. eauto.
    + destruct (matcher r1 x c); simpl; [eauto|]. apply (IH2 _ _ _ _ H Hc).
  - destruct H as (y1 & H1 & Hs).
    assert (Hcons : forall a b, Matches r1 (clear_captures r1 a) b ->
              exists w, remaining a = w ++ remaining b /\
                        endIndex b = endIndex a + List.length w).
    { intros a b Hab. apply (@matches_consumes r1 _ _ Hab). }
    destruct (@repeat_matcher_complete (matcher r1) (Matches r1)
                (clear_captures r1) IH Hcons y1 y Hs
                (List.length (remaining y1)) c z (le_n _) Hc) as (z1 & Hz1).
    apply (IH _ y1 _ z1 H1 Hz1).
  - destruct H as [[H Hprog]| ->].
    + destruct (IH (clear_captures r1 x) y
                  (fun y0 => if Nat.eqb (endIndex y0) (endIndex x) then None
                             else c y0) z H) as (z1 & ->).
      * destruct (Nat.eqb_spec (endIndex y) (endIndex x));
          [contradiction | assumption].
      * simpl. eauto.
    + destruct (matcher r1 _ _); simpl; eauto.
  - destruct H as (y1 & H1 & ->).
    apply (IH x y1 _ z H1 Hc).
Qed.

(** [exec] returns the array of the match at the first index where
    [matcher] succeeds. *)
Lemma exec_from_some (r : Regex) (n : nat) :
  forall input i arr,
    exec_from r n i input = Some arr ->
    exists before rest y,
      input = before ++ rest /\
      matcher r (mkState (i + List.length before) rest (repeat None n)) Some
      = Some y /\
      arr = match_array (i + List.length before) rest y /\
      (forall b' r',
          input = b' ++ r' -> List.length b' < List.length before ->
          matcher r (mkState (i + List.length b') r' (repeat None n)) Some
          = None).
Proof.
  induction input as [|a input IH]; intros i arr H; simpl in H.
  - destruct (matcher r _ Some) as [y|] eqn:E; [|discriminate].
    injection H as <-. exists [], [], y. simpl. rewrite Nat.add_0_r.
    repeat split; try assumption. intros b' r' _ Hlt. lia.
  - destruct (matcher r _ Some) as [y|] eqn:E.
    + injection H as <-. exists [], (a :: input), y. simpl.
      rewrite Nat.add_0_r. repeat split; try assumption.
      intros b' r' _ Hlt. lia.
    + apply IH in H as (before & rest & y & -> & HM & -> & Hmin).
      exists (a :: before), rest, y. simpl List.length.
      rewrite Nat.add_succ_r. repeat split; try assumption.
      intros [|a' b'] r' Hsplit Hlt; simpl in *.
      * subst r'. now rewrite Nat.add_0_r.
      * injection Hsplit as -> Hsplit. rewrite Nat.add_succ_r.
        apply (Hmin b' r' Hsplit). lia.
Qed.

Lemma exec_from_none (r : Regex) (n : nat) :
  forall input i,
    exec_from r n i input = None ->
    forall before rest,
      input = before ++ rest ->
      matcher r (mkState (i + List.length before) rest (repeat None n)) Some
      = None.
Proof.
  induction input as [|a input IH]; intros i H before rest Hsplit;
    simpl in H.
  - destruct before; [|discriminate]. simpl in *. subst rest.
    rewrite Nat.add_0_r. now destruct (matcher r _ Some).
  - destruct (matcher r _ Some) as [y0|] eqn:E; [discriminate|].
    destruct before as [|a' before]; simpl in *.
    + subst rest. now rewrite Nat.add_0_r.
    + injection Hsplit as -> Hsplit. rewrite Nat.add_succ_r.
      apply (IH (S i) H before rest Hsplit).
Qed.

(** ** Strings and lists of characters *)

Lemma chars_app (a b : string) : chars (a ++ b)%string = chars a ++ chars b.
Proof.
  induction a as [|ch a IH]; simpl; [reflexivity | now rewrite IH].
Qed.

Lemma str_app (a b : list ascii) : str (a ++ b) = (str a ++ str b)%string.
Proof.
  induction a as [|ch a IH]; simpl; [reflexivity | now rewrite IH].
Qed.

Lemma chars_length (a : string) : List.length (chars a) = String.length a.
Proof.
  induction a as [|ch a IH]; simpl; [reflexivity | now rewrite IH].
Qed.

Lemma chars_inj (a b : string) : chars a = chars b -> a = b.
Proof.
  intros H. rewrite <- (string_of_list_ascii_of_string a),
    <- (string_of_list_ascii_of_string b). now rewrite H.
Qed.

Lemma str_nonempty (l : list ascii) : l <> [] -> str l <> "".
Proof.
  destruct l; [congruence | discriminate].
Qed.

Lemma chars_nonempty (s : string) : s <> "" -> chars s <> [].
Proof.
  destruct s; [congruence | discriminate].
Qed.

Lemma all_chars_str (p : ascii -> bool) (l : list ascii) :
  all_chars p (str l) <-> forallb p l = true.
Proof.
  unfold all_chars. now rewrite list_ascii_of_string_of_list_ascii.
Qed.

Lemma word_str (l : list ascii) :
  l <> [] -> forallb is_word_char l = true -> word (str l).
Proof.
  intros Hne Hall. split; [now apply str_nonempty | now apply all_chars_str].
Qed.

Lemma ends_word_str (l : list ascii) :
  ends_run is_word_char l -> ends_word (str l).
Proof.
  now destruct l.
Qed.

Lemma ends_word_chars (s : string) :
  ends_word s -> ends_run is_word_char (chars s).
Proof.
  now destruct s.
Qed.

Lemma app_split_length {A : Type} (a1 a2 b1 b2 : list A) :
  a1 ++ a2 = b1 ++ b2 -> List.length a1 = List.length b1 ->
  a1 = b1 /\ a2 = b2.
Proof.
  revert b1. induction a1 as [|x a1 IH]; intros [|y b1] H Hlen;
    simpl in *; try discriminate.
  - now split.
  - injection H as -> H. destruct (IH b1 H) as [-> ->]; [lia | now split].
Qed.

(** ** Runs of characters *)

Lemma run_split (p : ascii -> bool) (l : list ascii) :
  l = take_run p l ++ drop_run p l /\
  forallb p (take_run p l) = true /\
  ends_run p (drop_run p l).
Proof.
  induction l as [|ch l (IH1 & IH2 & IH3)]; simpl; [now repeat split|].
  destruct (p ch) eqn:Hp; simpl.
  - rewrite Hp, IH2, <- IH1. now repeat split.
  - now repeat split.
Qed.

Lemma take_run_nonempty (p : ascii -> bool) (w rest : list ascii) :
  w <> [] -> forallb p w = true -> take_run p (w ++ rest) <> [].
Proof.
  destruct w as [|ch w]; [congruence|]. simpl. intros _ H.
  apply andb_true_iff in H as [-> _]. discriminate.
Qed.

(** A run that stops at the end of the input, or in front of a character
    outside the set, is the longest one. *)
Lemma run_unique (p : ascii -> bool) (w1 w2 r1 r2 : list ascii) :
  forallb p w1 = true -> forallb p w2 = true ->
  ends_run p r1 -> ends_run p r2 ->
  w1 ++ r1 = w2 ++ r2 -> w1 = w2 /\ r1 = r2.
Proof.
  revert w2. induction w1 as [|a w1 IH]; intros [|b w2] H1 H2 E1 E2 H;
    simpl in *.
  - now split.
  - subst r1. simpl in E1. apply andb_true_iff in H2 as [H2 _]. congruence.
  - subst r2. simpl in E2. apply andb_true_iff in H1 as [H1 _]. congruence.
  - injection H as -> H.
    apply andb_true_iff in H1 as [_ H1]. apply andb_true_iff in H2 as [_ H2].
    destruct (IH w2 H1 H2 E1 E2 H) as [-> ->]. now split.
Qed.

(** ** What the matcher computes on literals and greedy runs *)

Lemma matcher_char (ch : ascii) (i : nat) (rest : list ascii) (caps : Captures)
  (c : Continuation) :
  matcher (Char ch) (mkState i (ch :: rest) caps) c
  = c (mkState (S i) rest caps).
Proof.
  simpl. unfold char_matcher. simpl. now rewrite Ascii.eqb_refl.
Qed.

Lemma matcher_char_other (ch a : ascii) (i : nat) (rest : list ascii)
  (caps : Captures) (c : Continuation) :
  a <> ch -> matcher (Char ch) (mkState i (a :: rest) caps) c = None.
Proof.
  intros H. simpl. unfold char_matcher. simpl.
  destruct (Ascii.eqb_spec ch a); [congruence | reflexivity].
Qed.

Lemma matcher_lit (s : string) :
  forall i rest caps c,
    matcher (lit s) (mkState i (chars s ++ rest) caps) c
    = c (mkState (i + String.length s) rest caps).
Proof.
  induction s as [|ch s IH]; intros i rest caps c.
  - simpl. now rewrite Nat.add_0_r.
  - change (matcher (lit (String ch s)) (mkState i (chars (String ch s) ++ rest) caps) c)
      with (matcher (Char ch) (mkState i (ch :: chars s ++ rest) caps)
              (fun y => matcher (lit s) y c)).
    rewrite matcher_char, IH. simpl String.length. now rewrite Nat.add_succ_r.
Qed.

Lemma repeat_matcher_S (m : MatchState -> Continuation -> option MatchState)
  (clear : MatchState -> MatchState) (fuel : nat) (x : MatchState)
  (c : Continuation) :
  repeat_matcher m clear (S fuel) x c
  = or_else
      (m (clear x)
         (fun y => if Nat.eqb (endIndex y) (endIndex x) then None
                   else repeat_matcher m clear fuel y c))
      (c x).
Proof.
  reflexivity.
Qed.

Lemma charset_step (p : ascii -> bool) (i : nat) (a : ascii)
  (rest : list ascii) (caps : Captures) (k : Continuation) :
  p a = true ->
  matcher (CharSet p) (clear_captures (CharSet p) (mkState i (a :: rest) caps)) k
  = k (mkState (S i) rest caps).
Proof.
  intros H. cbn. unfold char_matcher. cbn. now rewrite H.
Qed.

Lemma charset_stop (p : ascii -> bool) (i : nat) (rest : list ascii)
  (caps : Captures) (k : Continuation) :
  ends_run p rest ->
  matcher (CharSet p) (clear_captures (CharSet p) (mkState i rest caps)) k
  = None.
Proof.
  intros H. cbn. unfold char_matcher. cbn.
  destruct rest as [|ch rest]; [reflexivity|]. simpl in H. now rewrite H.
Qed.

Lemma repeat_charset_longest (p : ascii -> bool) (c : Continuation)
  (rest : list ascii) (caps : Captures) :
  ends_run p rest ->
  forall w i fuel z,
    forallb p w = true -> List.length w <= fuel ->
    c (mkState (i + List.length w) rest caps) = Some z ->
    repeat_matcher (matcher (CharSet p)) (clear_captures (CharSet p)) fuel
      (mkState i (w ++ rest) caps) c = Some z.
Proof.
  intros Hend w. induction w as [|a w IH]; intros i fuel z Hall Hfuel Hz.
  - cbn [app List.length] in *. rewrite Nat.add_0_r in Hz.
    destruct fuel as [|fuel]; [exact Hz|].
    rewrite repeat_matcher_S, charset_stop by assumption. exact Hz.
  - cbn [forallb] in Hall. apply andb_true_iff in Hall as [Ha Hall].
    cbn [List.length] in Hfuel, Hz.
    destruct fuel as [|fuel]; [lia|].
    rewrite repeat_matcher_S. cbn [app]. rewrite charset_step by assumption.
    cbn [endIndex].
    destruct (Nat.eqb_spec (S i) i) as [|_]; [lia|].
    rewrite (IH (S i) fuel z Hall); [reflexivity | lia |].
    now rewrite Nat.add_succ_r in Hz.
Qed.

(** A greedy [+] over a set takes the longest run first: when the
    continuation accepts the state after it, that is the result. *)
Lemma matcher_plus_longest (p : ascii -> bool) (c : Continuation)
  (w rest : list ascii) (i : nat) (caps : Captures) (z : MatchState) :
  w <> [] -> forallb p w = true -> ends_run p rest ->
  c (mkState (i + List.length w) rest caps) = Some z ->
  matcher (Plus (CharSet p)) (mkState i (w ++ rest) caps) c = Some z.
Proof.
  intros Hne Hall Hend Hz. destruct w as [|a w]; [congruence|].
  cbn [forallb] in Hall. apply andb_true_iff in Hall as [Ha Hall].
  change (matcher (Plus (CharSet p)) (mkState i ((a :: w) ++ rest) caps) c)
    with (matcher (CharSet p)
            (clear_captures (CharSet p) (mkState i (a :: w ++ rest) caps))
            (fun y => repeat_matcher (matcher (CharSet p))
                        (clear_captures (CharSet p))
                        (List.length (remaining y)) y c)).
  rewrite charset_step by assumption. cbn [remaining].
  apply repeat_charset_longest; try assumption.
  - rewrite length_app. lia.
  - cbn [List.length] in Hz. now rewrite Nat.add_succ_r in Hz.
Qed.

(** ** What the patterns match *)

Lemma consumes_intro (i : nat) (w rest : list ascii) (caps : Captures) :
  Consumes (mkState i (w ++ rest) caps) w
    (mkState (i + List.length w) rest caps).
Proof.
  now repeat split.
Qed.

Lemma consumes_nil (x y : MatchState) : Consumes x [] y -> y = x.
Proof.
  destruct x, y. unfold Consumes. simpl. intros (-> & -> & ->).
  now rewrite Nat.add_0_r.
Qed.

Lemma consumes_trans (x m y : MatchState) (w1 w2 : list ascii) :
  Consumes x w1 m -> Consumes m w2 y -> Consumes x (w1 ++ w2) y.
Proof.
  intros (Hr1 & Hi1 & Hc1) (Hr2 & Hi2 & Hc2). repeat split.
  - now rewrite <- app_assoc, <- Hr2.
  - rewrite length_app. lia.
  - congruence.
Qed.

Lemma consumes_split (x y : MatchState) (w1 w2 : list ascii) :
  Consumes x (w1 ++ w2) y ->
  exists m, Consumes x w1 m /\ Consumes m w2 y.
Proof.
  intros (Hr & Hi & Hc).
  exists (mkState (endIndex x + List.length w1) (w2 ++ remaining y) (captures x)).
  repeat split; simpl.
  - now rewrite app_assoc.
  - rewrite length_app in Hi. lia.
  - assumption.
Qed.

Lemma consumes_clear (r : Regex) (x y : MatchState) (w : list ascii) :
  groups_of r = [] ->
  Consumes (clear_captures r x) w y <-> Consumes x w y.
Proof.
  intros H. unfold Consumes, clear_captures. simpl. rewrite H. reflexivity.
Qed.

Lemma consumes_firstn (x y : MatchState) (w : list ascii) :
  Consumes x w y -> firstn (endIndex y - endIndex x) (remaining x) = w.
Proof.
  intros (Hr & Hi & _). rewrite Hr, Hi.
  replace (endIndex x + List.length w - endIndex x) with (List.length w + 0)
    by lia.
  rewrite firstn_app_2. simpl. apply app_nil_r.
Qed.

Lemma matches_charset (p : ascii -> bool) (x y : MatchState) :
  Matches (CharSet p) x y <-> exists ch, p ch = true /\ Consumes x [ch] y.
Proof.
  simpl. unfold step_char, Consumes. split.
  - intros (ch & rest & Hr & Hp & ->). exists ch. simpl.
    repeat split; try assumption. lia.
  - intros (ch & Hp & Hr & Hi & Hc). exists ch, (remaining y).
    repeat split; try assumption.
    destruct y. simpl in *. subst. f_equal. lia.
Qed.

Lemma matches_char (ch : ascii) (x y : MatchState) :
  Matches (Char ch) x y <-> Consumes x [ch] y.
Proof.
  unfold Char. rewrite matches_charset. split.
  - intros (a & Ha & H). apply Ascii.eqb_eq in Ha. now subst a.
  - intros H. exists ch. split; [apply Ascii.eqb_refl | assumption].
Qed.

Lemma matches_lit (s : string) :
  forall x y, Matches (lit s) x y <-> Consumes x (chars s) y.
Proof.
  induction s as [|ch s IH]; intros x y.
  - simpl. split; [intros ->; now repeat split | apply consumes_nil].
  - change (Matches (lit (String ch s)) x y)
      with (exists m, Matches (Char ch) x m /\ Matches (lit s) m y).
    change (chars (String ch s)) with ([ch] ++ chars s). split.
    + intros (m & H1 & H2). apply matches_char in H1. apply IH in H2.
      now apply consumes_trans with (m := m).
    + intros H. apply consumes_split in H as (m & H1 & H2). exists m.
      split; [now apply matches_char | now apply IH].
Qed.

Lemma star_charset (p : ascii -> bool) (x y : MatchState) :
  Star (fun a b => Matches (CharSet p) (clear_captures (CharSet p) a) b /\
                   endIndex b <> endIndex a) x y
  <-> exists w, forallb p w = true /\ Consumes x w y.
Proof.
  split.
  - intros H. induction H as [x | x m y [Hxm _] _ (w & Hw & Hc)].
    + exists []. now repeat split.
    + apply matches_charset in Hxm as (ch & Hp & Hxm).
      apply consumes_clear in Hxm; [|reflexivity].
      exists ([ch] ++ w). split; [simpl; now rewrite Hp|].
      now apply consumes_trans with (m := m).
  - intros (w & Hw & Hc). revert x Hw Hc.
    induction w as [|ch w IH]; intros x Hw Hc.
    + apply consumes_nil in Hc. subst y. constructor.
    + simpl in Hw. apply andb_true_iff in Hw as [Hp Hw].
      change (ch :: w) with ([ch] ++ w) in Hc.
      apply consumes_split in Hc as (m & H1 & H2).
      apply star_more with (y := m); [|now apply IH]. split.
      * apply matches_charset. exists ch. split; [assumption|].
        now apply consumes_clear.
      * destruct H1 as (_ & Hi & _). simpl in Hi. lia.
Qed.

Lemma matches_plus_charset (p : ascii -> bool) (x y : MatchState) :
  Matches (Plus (CharSet p)) x y
  <-> exists w, w <> [] /\ forallb p w = true /\ Consumes x w y.
Proof.
  change (Matches (Plus (CharSet p)) x y)
    with (exists m,
             Matches (CharSet p) (clear_captures (CharSet p) x) m /\
             Star (fun a b => Matches (CharSet p) (clear_captures (CharSet p) a) b /\
                              endIndex b <> endIndex a) m y).
  split.
  - intros (m & H1 & Hs). apply matches_charset in H1 as (ch & Hp & H1).
    apply consumes_clear in H1; [|reflexivity].
    apply star_charset in Hs as (w & Hw & Hs).
    exists ([ch] ++ w). split; [discriminate|].
    split; [simpl; now rewrite Hp|].
    now apply consumes_trans with (m := m).
  - intros ([|ch w] & Hne & Hw & Hc); [congruence|].
    simpl in Hw. apply andb_true_iff in Hw as [Hp Hw].
    change (ch :: w) with ([ch] ++ w) in Hc.
    apply consumes_split in Hc as (m & H1 & H2). exists m. split.
    + apply matches_charset. exists ch. split; [assumption|].
      now apply consumes_clear.
    + apply star_charset. now exists w.
Qed.

Lemma matches_optional_char (ch : ascii) (x y : MatchState) :
  Matches (Optional (Char ch)) x y <-> Consumes x [ch] y \/ Consumes x [] y.
Proof.
  change (Matches (Optional (Char ch)) x y)
    with ((Matches (Char ch) (clear_captures (Char ch) x) y /\
           endIndex y <> endIndex x) \/ y = x).
  rewrite matches_char, consumes_clear by reflexivity. split.
  - intros [[H _]| ->]; [now left | right; now repeat split].
  - intros [H|H]; [left | right; now apply consumes_nil].
    split; [assumption|]. destruct H as (_ & Hi & _). simpl in Hi. lia.
Qed.

Lemma firstn_consumed (i : nat) (w rest : list ascii) :
  firstn (i + List.length w - i) (w ++ rest) = w.
Proof.
  replace (i + List.length w - i) with (List.length w + 0) by lia.
  rewrite firstn_app_2. simpl. apply app_nil_r.
Qed.

(** A group around [p+] records the run it matched. *)
Lemma matches_group_plus (i : nat) (p : ascii -> bool) (x y : MatchState) :
  Matches (Group i (Plus (CharSet p))) x y
  <-> exists w,
        w <> [] /\ forallb p w = true /\
        remaining x = w ++ remaining y /\
        endIndex y = endIndex x + List.length w /\
        captures y = set_capture i w (captures x).
Proof.
  change (Matches (Group i (Plus (CharSet p))) x y)
    with (exists g,
             Matches (Plus (CharSet p)) x g /\
             y = mkState (endIndex g) (remaining g)
                   (set_capture i
                      (firstn (endIndex g - endIndex x) (remaining x))
                      (captures g))).
  split.
  - intros (g & Hg & ->). apply matches_plus_charset in Hg as (w & Hne & Hw & Hc).
    exists w. rewrite (consumes_firstn Hc).
    destruct Hc as (Hr & Hi & Hcap). simpl. rewrite Hcap. now repeat split.
  - intros (w & Hne & Hw & Hr & Hi & Hcap).
    exists (mkState (endIndex y) (remaining y) (captures x)). split.
    + apply matches_plus_charset. exists w. now repeat split.
    + simpl. rewrite Hr, Hi, firstn_consumed, <- Hcap, <- Hi. now destruct y.
Qed.

(** ** File extension of a URL *)

Lemma matcher_seq_cons (r : Regex) (rs : list Regex) (x : MatchState)
  (c : Continuation) :
  matcher (seq (r :: rs)) x c = matcher r x (fun y => matcher (seq rs) y c).
Proof.
  reflexivity.
Qed.

Lemma matcher_group_plus_longest (g : nat) (p : ascii -> bool)
  (c : Continuation) (w rest : list ascii) (i : nat) (caps : Captures)
  (z : MatchState) :
  w <> [] -> forallb p w = true -> ends_run p rest ->
  c (mkState (i + List.length w) rest (set_capture g w caps)) = Some z ->
  matcher (Group g (Plus (CharSet p))) (mkState i (w ++ rest) caps) c = Some z.
Proof.
  intros Hne Hw Hend Hz.
  change (matcher (Group g (Plus (CharSet p))) (mkState i (w ++ rest) caps) c)
    with (matcher (Plus (CharSet p)) (mkState i (w ++ rest) caps)
            (fun y =>
               c (mkState (endIndex y) (remaining y)
                    (set_capture g
                       (firstn (endIndex y - i) (w ++ rest)) (captures y))))).
  apply matcher_plus_longest; try assumption.
  cbn [endIndex remaining captures]. now rewrite firstn_consumed.
Qed.

Lemma format_alternative_computes (i : nat) (w rest : list ascii) :
  w <> [] -> forallb is_word_char w = true -> ends_run is_word_char rest ->
  matcher format_alternative
    (mkState i (chars "format=" ++ w ++ rest) no_captures) Some
  = Some (mkState (i + 7 + List.length w) rest [Some w; None; None]).
Proof.
  intros Hne Hw Hend. unfold format_alternative.
  rewrite matcher_seq_cons, matcher_lit. cbv beta.
  rewrite matcher_seq_cons.
  apply matcher_group_plus_longest; try assumption. reflexivity.
Qed.

Lemma trailing_alternative_computes (i : nat) (w : list ascii) :
  w <> [] -> forallb is_word_char w = true ->
  matcher trailing_alternative (mkState i ("."%char :: w) no_captures) Some
  = Some (mkState (S i + List.length w) [] [None; Some w; None]).
Proof.
  intros Hne Hw. unfold trailing_alternative.
  rewrite matcher_seq_cons, matcher_char. cbv beta.
  rewrite matcher_seq_cons. rewrite <- (app_nil_r w) at 1.
  apply matcher_group_plus_longest; try assumption; reflexivity.
Qed.

Lemma query_alternative_computes (i : nat) (w q : list ascii) :
  w <> [] -> forallb is_word_char w = true ->
  q <> [] -> forallb not_line_terminator q = true ->
  matcher query_alternative
    (mkState i ("."%char :: w ++ "?"%char :: q) no_captures) Some
  = Some (mkState (S (S i + List.length w) + List.length q) []
            [None; None; Some w]).
Proof.
  intros Hne Hw Hq Hl. unfold query_alternative.
  rewrite matcher_seq_cons, matcher_char. cbv beta.
  rewrite matcher_seq_cons.
  apply matcher_group_plus_longest; try assumption; [reflexivity|].
  rewrite matcher_seq_cons, matcher_char. cbv beta.
  rewrite matcher_seq_cons. rewrite <- (app_nil_r q) at 1.
  apply matcher_plus_longest; try assumption; reflexivity.
Qed.

Lemma format_alternative_dot (i : nat) (rest : list ascii) (caps : Captures)
  (c : Continuation) :
  matcher format_alternative (mkState i ("."%char :: rest) caps) c = None.
Proof.
  reflexivity.
Qed.

Lemma format_alternative_shape (x y : MatchState) :
  Matches format_alternative x y ->
  exists w rest,
    w <> [] /\ forallb is_word_char w = true /\
    remaining x = chars "format=" ++ w ++ rest.
Proof.
  intros (m & H1 & m2 & H2 & _). apply matches_lit in H1.
  apply matches_group_plus in H2 as (w & Hne & Hw & Hr & _).
  destruct H1 as (Hx & _). exists w, (remaining m2).
  repeat split; try assumption. now rewrite Hx, Hr.
Qed.

Lemma trailing_alternative_shape (x y : MatchState) :
  Matches trailing_alternative x y ->
  exists w,
    w <> [] /\ forallb is_word_char w = true /\
    remaining x = "."%char :: w.
Proof.
  intros (m & H1 & m2 & H2 & m3 & [H3 _] & _). apply matches_char in H1.
  apply matches_group_plus in H2 as (w & Hne & Hw & Hr & _).
  destruct H1 as (Hx & _). exists w.
  repeat split; try assumption. rewrite Hx, Hr, H3. simpl.
  now rewrite app_nil_r.
Qed.

Lemma query_alternative_shape (x y : MatchState) :
  Matches query_alternative x y ->
  exists w q,
    w <> [] /\ forallb is_word_char w = true /\
    q <> [] /\ forallb not_line_terminator q = true /\
    remaining x = "."%char :: w ++ "?"%char :: q.
Proof.
  intros (m & H1 & m2 & H2 & m3 & H3 & m4 & H4 & m5 & [H5 _] & _).
  apply matches_char in H1. apply matches_char in H3.
  apply matches_group_plus in H2 as (w & Hne & Hw & Hr & _).
  apply matches_plus_charset in H4 as (q & Hq & Hl & H4).
  destruct H1 as (Hx & _). destruct H3 as (H3 & _). destruct H4 as (H4 & _).
  exists w, q. repeat split; try assumption.
  rewrite Hx, Hr, H3, H4, H5. simpl. now rewrite app_nil_r.
Qed.

Lemma word_chars (w : string) :
  word w -> chars w <> [] /\ forallb is_word_char (chars w) = true.
Proof.
  intros [Hne Hw]. split; [now apply chars_nonempty | exact Hw].
Qed.

Lemma question_mark_ends_word (q : list ascii) :
  ends_run is_word_char ("?"%char :: q).
Proof.
  reflexivity.
Qed.

(** Where one of the three forms starts, the pattern matches and the one
    capture that is set is the extension. *)
Lemma extension_found (i : nat) (s ext : string) :
  ExtensionAt s ext ->
  exists y,
    matcher file_extension_regex (mkState i (chars s) no_captures) Some = Some y /\
    (captures y = [Some (chars ext); None; None] \/
     captures y = [None; Some (chars ext); None] \/
     captures y = [None; None; Some (chars ext)]).
Proof.
  intros H. unfold file_extension_regex.
  change (matcher (Disjunction ?a (Disjunction ?b ?c)) ?x ?k)
    with (or_else (matcher a x k) (or_else (matcher b x k) (matcher c x k))).
  destruct H as [w rest Hw He | w Hw | w q Hw Hq Hl];
    apply word_chars in Hw as [Hne Hw].
  - rewrite !chars_app.
    rewrite format_alternative_computes
      by (try assumption; now apply ends_word_chars).
    eexists. split; [reflexivity | now left].
  - rewrite chars_app. cbn [chars app]. rewrite format_alternative_dot.
    rewrite trailing_alternative_computes by assumption.
    eexists. split; [reflexivity | right; now left].
  - rewrite !chars_app. cbn [chars app]. rewrite format_alternative_dot.
    destruct (matcher trailing_alternative _ Some) as [y|] eqn:E.
    + exfalso. apply matcher_sound in E as (y' & E & _).
      apply trailing_alternative_shape in E as (w2 & _ & Hw2 & E).
      cbn [remaining] in E. injection E as E. rewrite <- E in Hw2.
      rewrite forallb_app in Hw2. apply andb_true_iff in Hw2 as [_ Hw2].
      discriminate Hw2.
    + rewrite query_alternative_computes; try assumption.
      * eexists. split; [reflexivity | right; now right].
      * now apply chars_nonempty.
Qed.

(** Where the pattern matches, one of the three forms starts. *)
Lemma extension_exists (i : nat) (s : list ascii) (caps : Captures)
  (y : MatchState) :
  matcher file_extension_regex (mkState i s caps) Some = Some y ->
  exists ext, ExtensionAt (str s) ext.
Proof.
  intros H. apply matcher_sound in H as (y' & [H|[H|H]] & _).
  - apply format_alternative_shape in H as (w & rest & Hne & Hw & Hs).
    cbn [remaining] in Hs.
    destruct (run_split is_word_char (w ++ rest)) as (Hsplit & Hrun & Hend).
    assert (Hrun_ne : take_run is_word_char (w ++ rest) <> [])
      by now apply take_run_nonempty.
    remember (take_run is_word_char (w ++ rest)) as run.
    remember (drop_run is_word_char (w ++ rest)) as tail.
    exists (str run). rewrite Hs, Hsplit, !str_app. apply at_format.
    + now apply word_str.
    + now apply ends_word_str.
  - apply trailing_alternative_shape in H as (w & Hne & Hw & Hs).
    cbn [remaining] in Hs. exists (str w). rewrite Hs.
    apply (at_trailing (word_str Hne Hw)).
  - apply query_alternative_shape in H as (w & q & Hne & Hw & Hq & Hl & Hs).
    cbn [remaining] in Hs. exists (str w). rewrite Hs.
    change ("."%char :: w ++ "?"%char :: q)
      with (["."%char] ++ w ++ ["?"%char] ++ q).
    rewrite !str_app. apply at_query.
    + now apply word_str.
    + now apply str_nonempty.
    + now apply all_chars_str.
Qed.

Lemma str_split (url : string) (before rest : list ascii) :
  chars url = before ++ rest -> url = (str before ++ str rest)%string.
Proof.
  intros H. rewrite <- str_app, <- H. symmetry.
  apply string_of_list_ascii_of_string.
Qed.

Lemma str_length (l : list ascii) : String.length (str l) = List.length l.
Proof.
  now rewrite <- chars_length, list_ascii_of_string_of_list_ascii.
Qed.

(** The value [getFileExtensionFromUrl] builds from a match array. *)
Lemma extension_of_array (i : nat) (input : list ascii) (y : MatchState)
  (ext : string) :
  captures y = [Some (chars ext); None; None] \/
  captures y = [None; Some (chars ext); None] \/
  captures y = [None; None; Some (chars ext)] ->
  let m := Some (match_array i input y) in
  (or_else (m ?. (fun a => at_index a 1))
     (or_else (m ?. (fun a => at_index a 2)) (m ?. (fun a => at_index a 3))))
    ?? "jpg" = ext.
Proof.
  unfold match_array.
  intros [-> | [-> | ->]]; simpl; apply string_of_list_ascii_of_string.
Qed.

(** C3, amended: [getFileExtensionFromUrl] returns the extension named at
    the first position of the URL where one of the three forms starts,
    [format=<ext>], [.<ext>] up to the end, or [.<ext>?] and a rest; it
    returns ["jpg"] when there is no such position.  The two URLs of the
    specification give ["png"] and ["jpg"]. *)
Theorem getFileExtensionFromUrl_leftmost (url : string) :
  (forall before s ext,
      url = (before ++ s)%string ->
      ExtensionAt s ext ->
      (forall b' s' e',
          url = (b' ++ s')%string ->
          String.length b' < String.length before ->
          ~ ExtensionAt s' e') ->
      getFileExtensionFromUrl url = ext) /\
  ((forall before s ext, url = (before ++ s)%string -> ~ ExtensionAt s ext) ->
   getFileExtensionFromUrl url = "jpg") /\
  getFileExtensionFromUrl
    "https://pbs.twimg.com/card_img/123/Y1N?format=png&name=orig" = "png" /\
  getFileExtensionFromUrl "https://pbs.twimg.com/profile_banners/468/169"
  = "jpg".
Proof.
  split; [|split; [|split; reflexivity]].
  - intros b0 s0 e0 Hurl Hat Hfirst.
    destruct (extension_found (0 + List.length (chars b0)) Hat)
      as (y0 & Hy0 & Hcap0).
    assert (Hsplit0 : chars url = chars b0 ++ chars s0)
      by (now rewrite Hurl, chars_app).
    unfold getFileExtensionFromUrl, exec.
    change (List.length (groups_of file_extension_regex)) with 3.
    destruct (exec_from file_extension_regex 3 0 (chars url)) as [arr|] eqn:E.
    + apply exec_from_some in E as (before & rest & y & Hsplit & Hm & -> & Hmin).
      unfold no_captures in Hy0. cbn [repeat] in Hm, Hmin.
      destruct (Nat.lt_trichotomy (List.length (chars b0)) (List.length before))
        as [Hlt | [Heq | Hgt]].
      * rewrite (Hmin (chars b0) (chars s0) Hsplit0 Hlt) in Hy0. discriminate.
      * rewrite Hsplit in Hsplit0.
        destruct (app_split_length _ _ _ _ Hsplit0 (eq_sym Heq)) as [-> ->].
        rewrite Hy0 in Hm. injection Hm as <-.
        now apply extension_of_array.
      * exfalso. destruct (extension_exists _ _ _ Hm) as (ext & Hext).
        apply (Hfirst (str before) (str rest) ext); [now apply str_split | |
                                                     assumption].
        rewrite str_length, <- chars_length. assumption.
    + exfalso.
      pose proof (exec_from_none _ _ _ E (chars b0) (chars s0) Hsplit0) as Hn.
      unfold no_captures in Hy0. cbn [repeat] in Hn. rewrite Hn in Hy0.
      discriminate.
  - intros Hnone. unfold getFileExtensionFromUrl, exec.
    change (List.length (groups_of file_extension_regex)) with 3.
    destruct (exec_from file_extension_regex 3 0 (chars url)) as [arr|] eqn:E;
      [|reflexivity].
    exfalso.
    apply exec_from_some in E as (before & rest & y & Hsplit & Hm & _).
    destruct (extension_exists _ _ _ Hm) as (ext & Hext).
    apply (Hnone (str before) (str rest) ext); [now apply str_split | assumption].
Qed.

Lemma getFileExtensionFromUrl_leftmost_witness :
  getFileExtensionFromUrl "a.mp4" = "mp4".
Proof.
  apply (proj1 (getFileExtensionFromUrl_leftmost "a.mp4") "a" ".mp4" "mp4").
  - reflexivity.
  - apply (@at_trailing "mp4"). split; [discriminate | reflexivity].
  - intros b' s' e' Hurl Hlen H. destruct b' as [|ch b']; [|simpl in Hlen; lia].
    simpl in Hurl. subst s'. inversion H.
Defined.

(** C3 as the specification words it does not hold: on a URL with a dotted
    extension in front of a [format=] parameter the source returns the
    dotted extension, the three attempts made in order return the
    parameter. *)
Lemma getFileExtensionFromUrl_order_counterexample :
  getFileExtensionFromUrl "https://video.twimg.com/v.mp4?format=png" = "mp4" /\
  fileExtension_in_order "https://video.twimg.com/v.mp4?format=png" = "png" /\
  ~ (forall url, getFileExtensionFromUrl url = fileExtension_in_order url).
Proof.
  split; [reflexivity|]. split; [reflexivity|].
  intros H. specialize (H "https://video.twimg.com/v.mp4?format=png").
  vm_compute in H. discriminate H.
Qed.

(** ** Image URLs *)

Lemma media_address_matches (x g : MatchState) :
  Matches media_address x g
  <-> exists opt body,
        (opt = [] \/ opt = ["s"%char]) /\
        body <> [] /\ forallb not_line_terminator body = true /\
        Consumes x (chars "http" ++ opt ++ host_path ++ body) g.
Proof.
  unfold media_address. split.
  - intros (a & Ha & b & Hb & c & Hc & d & Hd & ->).
    apply matches_lit in Ha. apply matches_optional_char in Hb.
    apply matches_lit in Hc.
    apply matches_plus_charset in Hd as (body & Hne & Hl & Hd).
    assert (Hopt : exists opt, (opt = [] \/ opt = ["s"%char]) /\ Consumes a opt b).
    { destruct Hb as [Hb|Hb]; eexists; (split; [|exact Hb]); auto. }
    destruct Hopt as (opt & Hopt & Hab).
    exists opt, body. repeat split; try assumption;
      apply (consumes_trans Ha (consumes_trans Hab (consumes_trans Hc Hd))).
  - intros (opt & body & Hopt & Hne & Hl & H).
    apply consumes_split in H as (a & Ha & H).
    apply consumes_split in H as (b & Hb & H).
    apply consumes_split in H as (c & Hc & Hd).
    exists a. split; [now apply matches_lit|].
    exists b. split.
    { apply matches_optional_char. destruct Hopt as [-> | ->]; auto. }
    exists c. split; [now apply matches_lit|].
    exists g. split; [|reflexivity].
    apply matches_plus_charset. now exists body.
Qed.

Lemma twitter_image_shape (x y : MatchState) :
  Matches twitter_image_regex x y ->
  endIndex x = 0 /\
  exists opt body ext,
    (opt = [] \/ opt = ["s"%char]) /\
    body <> [] /\ forallb not_line_terminator body = true /\
    ext <> [] /\ forallb is_word_char ext = true /\
    remaining x
    = (chars "http" ++ opt ++ host_path ++ body) ++ "."%char :: ext /\
    captures y
    = set_capture 2 ext
        (set_capture 1 (chars "http" ++ opt ++ host_path ++ body) (captures x)).
Proof.
  intros (m0 & [Hi ->] & m1 & (g & Hg & ->) & m2 & H2 & m3 & H3 & m4
          & [H4 ->] & ->).
  split; [assumption|].
  apply media_address_matches in Hg as (opt & body & Hopt & Hne & Hl & Hg).
  apply matches_char in H2.
  apply matches_group_plus in H3 as (ext & Hext & Hw & Hr3 & _ & Hc3).
  rewrite (consumes_firstn Hg) in H2.
  destruct Hg as (Hrg & _ & Hcg). destruct H2 as (Hr2 & _ & Hc2).
  cbn [remaining captures] in Hr2, Hc2.
  exists opt, body, ext. repeat split; try assumption.
  - rewrite Hrg, Hr2, Hr3, H4. simpl. now rewrite app_nil_r.
  - now rewrite Hc3, Hc2, Hcg.
Qed.

Lemma twitter_image_match (opt body ext : list ascii) (caps : Captures) :
  (opt = [] \/ opt = ["s"%char]) ->
  body <> [] -> forallb not_line_terminator body = true ->
  ext <> [] -> forallb is_word_char ext = true ->
  exists y,
    Matches twitter_image_regex
      (mkState 0 ((chars "http" ++ opt ++ host_path ++ body) ++ "."%char :: ext)
         caps) y.
Proof.
  intros Hopt Hne Hl Hext Hw.
  set (W := chars "http" ++ opt ++ host_path ++ body).
  set (x := mkState 0 (W ++ "."%char :: ext) caps).
  set (g := mkState (0 + List.length W) ("."%char :: ext) caps).
  set (m1 := mkState (endIndex g) (remaining g)
               (set_capture 1 (firstn (endIndex g - endIndex x) (remaining x))
                  (captures g))).
  set (m2 := mkState (S (endIndex g)) ext (captures m1)).
  set (m3 := mkState (S (endIndex g) + List.length ext) []
               (set_capture 2 ext (captures m1))).
  exists m3, x. split; [now split|].
  exists m1. split.
  { exists g. split; [|reflexivity]. apply media_address_matches.
    exists opt, body. repeat split; try assumption. }
  exists m2. split.
  { apply matches_char. unfold Consumes, m2, m1.
    cbn [endIndex remaining captures List.length app].
    repeat split. lia. }
  exists m3. split.
  { apply matches_group_plus. exists ext. repeat split; try assumption.
    simpl. now rewrite app_nil_r. }
  exists m3. split; [now split | reflexivity].
Qed.

Lemma forallb_rev (p : ascii -> bool) (l : list ascii) :
  forallb p l = true -> forallb p (rev l) = true.
Proof.
  rewrite !forallb_forall. intros H a Ha. apply H. now apply in_rev.
Qed.

(** A text splits in one way only into a base, a dot and a run of word
    characters up to its end. *)
Lemma last_dot_unique (b1 b2 e1 e2 : list ascii) :
  forallb is_word_char e1 = true -> forallb is_word_char e2 = true ->
  b1 ++ "."%char :: e1 = b2 ++ "."%char :: e2 ->
  b1 = b2 /\ e1 = e2.
Proof.
  intros H1 H2 H. apply (f_equal (@rev ascii)) in H.
  rewrite !rev_app_distr in H. simpl in H. rewrite <- !app_assoc in H.
  simpl in H.
  destruct (@run_unique is_word_char (rev e1) (rev e2)
              ("."%char :: rev b1) ("."%char :: rev b2)) as [He Hb];
    try (now apply forallb_rev); try reflexivity; try assumption.
  injection Hb as Hb. apply (f_equal (@rev ascii)) in He, Hb.
  rewrite !rev_involutive in He, Hb. now split.
Qed.

Lemma media_url_chars (url base ext : string) :
  MediaUrl url base ext ->
  exists opt body,
    (opt = [] \/ opt = ["s"%char]) /\
    body <> [] /\ forallb not_line_terminator body = true /\
    chars ext <> [] /\ forallb is_word_char (chars ext) = true /\
    chars base = chars "http" ++ opt ++ host_path ++ body /\
    chars url = chars base ++ "."%char :: chars ext.
Proof.
  intros (scheme & body & Hs & -> & Hne & Hl & Hw & ->).
  apply word_chars in Hw as [Hext Hw].
  assert (Hopt : exists opt,
             (opt = [] \/ opt = ["s"%char]) /\
             chars scheme = chars "http" ++ opt).
  { destruct Hs as [-> | ->]; eexists; (split; [|reflexivity]); auto. }
  destruct Hopt as (opt & Hopt & Hscheme).
  exists opt, (chars body). repeat split; try assumption.
  - now apply chars_nonempty.
  - now rewrite !chars_app, Hscheme, <- !app_assoc.
  - now rewrite !chars_app.
Qed.

Lemma media_url_str (opt body ext : list ascii) :
  (opt = [] \/ opt = ["s"%char]) ->
  body <> [] -> forallb not_line_terminator body = true ->
  ext <> [] -> forallb is_word_char ext = true ->
  MediaUrl (str ((chars "http" ++ opt ++ host_path ++ body) ++ "."%char :: ext))
    (str (chars "http" ++ opt ++ host_path ++ body)) (str ext).
Proof.
  intros Hopt Hne Hl Hext Hw.
  exists (str (chars "http" ++ opt)), (str body). repeat split.
  - destruct Hopt as [-> | ->]; auto.
  - destruct Hopt as [-> | ->]; now rewrite !str_app.
  - now apply str_nonempty.
  - now apply all_chars_str.
  - now apply str_nonempty.
  - now apply all_chars_str.
  - change ("."%char :: ext) with (["."%char] ++ ext). now rewrite !str_app.
Qed.

Lemma media_url_unique (url b1 e1 b2 e2 : string) :
  MediaUrl url b1 e1 -> MediaUrl url b2 e2 -> b1 = b2 /\ e1 = e2.
Proof.
  intros H1 H2.
  apply media_url_chars in H1 as (_ & _ & _ & _ & _ & _ & Hw1 & _ & Hu1).
  apply media_url_chars in H2 as (_ & _ & _ & _ & _ & _ & Hw2 & _ & Hu2).
  rewrite Hu1 in Hu2.
  destruct (@last_dot_unique _ _ _ _ Hw1 Hw2 Hu2) as [Hb He].
  split; now apply chars_inj.
Qed.

(** The pattern matches at index 0 only, and only an address of the media
    host with an extension; the two groups are the base and the extension. *)
Lemma twitter_image_sound (i : nat) (s : list ascii) (y : MatchState) :
  matcher twitter_image_regex (mkState i s [None; None]) Some = Some y ->
  i = 0 /\
  exists base ext,
    MediaUrl (str s) (str base) (str ext) /\
    captures y = [Some base; Some ext].
Proof.
  intros H. apply matcher_sound in H as (y' & H & Hy). injection Hy as ->.
  apply twitter_image_shape in H
    as (Hi & opt & body & ext & Hopt & Hne & Hl & Hext & Hw & Hs & Hc).
  cbn [endIndex remaining captures] in Hi, Hs, Hc. split; [assumption|].
  exists (chars "http" ++ opt ++ host_path ++ body), ext. split.
  - rewrite Hs. now apply media_url_str.
  - exact Hc.
Qed.

Lemma twitter_image_complete (url base ext : string) :
  MediaUrl url base ext ->
  exists y,
    matcher twitter_image_regex (mkState 0 (chars url) [None; None]) Some
    = Some y.
Proof.
  intros H.
  apply media_url_chars in H
    as (opt & body & Hopt & Hne & Hl & Hext & Hw & Hb & ->).
  rewrite Hb.
  destruct (twitter_image_match [None; None] Hopt Hne Hl Hext Hw) as (y & Hy).
  apply (@matcher_complete twitter_image_regex _ y Some y Hy eq_refl).
Qed.

(** C9: a URL of the media host with a dotted extension, [base.ext], is
    rewritten to [base?format=ext&name=size]; any other URL gets
    [?name=size] appended; the size is ['medium'] when none is given; the
    URL of the specification is rewritten as it says. *)
Theorem formatTwitterImage_rewrites (url : string) (name : ImageSize) :
  (forall base ext,
      MediaUrl url base ext ->
      formatTwitterImage url (Some name)
      = (base ++ "?format=" ++ ext ++ "&name=" ++ size_name name)%string) /\
  ((forall base ext, ~ MediaUrl url base ext) ->
   formatTwitterImage url (Some name)
   = (url ++ "?name=" ++ size_name name)%string) /\
  formatTwitterImage url None = formatTwitterImage url (Some medium) /\
  formatTwitterImage "https://pbs.twimg.com/media/ABC123.jpg" (Some orig)
  = "https://pbs.twimg.com/media/ABC123?format=jpg&name=orig".
Proof.
  split; [|split; [|split; reflexivity]].
  - intros base ext Hurl.
    destruct (twitter_image_complete Hurl) as (y0 & Hy0).
    unfold formatTwitterImage, exec.
    change (List.length (groups_of twitter_image_regex)) with 2.
    destruct (exec_from twitter_image_regex 2 0 (chars url)) as [arr|] eqn:E.
    + apply exec_from_some in E as (before & rest & y & Hsplit & Hm & -> & _).
      cbn [repeat] in Hm.
      apply twitter_image_sound in Hm as (Hi & b & e & Hshape & Hcap).
      destruct before as [|a before]; [|discriminate Hi].
      simpl in Hsplit. subst rest.
      rewrite string_of_list_ascii_of_string in Hshape.
      destruct (media_url_unique Hurl Hshape) as [-> ->].
      unfold match_array. rewrite Hcap. reflexivity.
    + pose proof (exec_from_none _ _ _ E [] (chars url) eq_refl) as Hn.
      cbn [repeat List.length Nat.add] in Hn. rewrite Hn in Hy0. discriminate.
  - intros Hnone. unfold formatTwitterImage, exec.
    change (List.length (groups_of twitter_image_regex)) with 2.
    destruct (exec_from twitter_image_regex 2 0 (chars url)) as [arr|] eqn:E;
      [|reflexivity].
    exfalso.
    apply exec_from_some in E as (before & rest & y & Hsplit & Hm & _).
    cbn [repeat] in Hm.
    apply twitter_image_sound in Hm as (Hi & b & e & Hshape & _).
    destruct before as [|a before]; [|discriminate Hi].
    simpl in Hsplit. subst rest.
    rewrite string_of_list_ascii_of_string in Hshape.
    apply (Hnone _ _ Hshape).
Qed.

Lemma formatTwitterImage_rewrites_witness :
  formatTwitterImage "https://pbs.twimg.com/media/ABC123.jpg" (Some large)
  = "https://pbs.twimg.com/media/ABC123?format=jpg&name=large" /\
  formatTwitterImage "https://pbs.twimg.com/media/ABC123?format=jpg" (Some small)
  = "https://pbs.twimg.com/media/ABC123?format=jpg?name=small".
Proof.
  split.
  - apply (proj1 (formatTwitterImage_rewrites
                    "https://pbs.twimg.com/media/ABC123.jpg" large)
             "https://pbs.twimg.com/media/ABC123" "jpg").
    exists "https", "ABC123".
    repeat split; try reflexivity; try discriminate. now right.
  - apply (proj1 (proj2 (formatTwitterImage_rewrites
                           "https://pbs.twimg.com/media/ABC123?format=jpg"
                           small))).
    intros base ext H. apply twitter_image_complete in H as (y & Hy).
    vm_compute in Hy. discriminate Hy.
Defined.

(** * Further properties of the file *)

(** ** Response decoder: failures and what is read *)

Lemma find_split {A : Type} (f : A -> bool) (l : list A) (a : A) :
  find f l = Some a ->
  exists before after,
    l = before ++ a :: after /\
    (forall b, In b before -> f b = false) /\ f a = true.
Proof.
  induction l as [|b l IH]; simpl; [discriminate|].
  destruct (f b) eqn:Hb.
  - intros H. injection H as <-. exists [], l. repeat split; try assumption.
    intros b' [].
  - intros H. destruct (IH H) as (before & after & -> & Hbefore & Ha).
    exists (b :: before), after. repeat split; try assumption.
    intros b' [<-|Hin]; [assumption | now apply Hbefore].
Qed.

Lemma item_not_module {P : Type} (e : TimelineEntry P) :
  isTimelineEntryModule e = true -> isTimelineEntryItem e = false.
Proof.
  unfold isTimelineEntryModule, isTimelineEntryItem.
  rewrite String.eqb_eq. intros ->. reflexivity.
Qed.

Section ResponseDecoderFurther.

Variables R T P : Type.
Variable JSON_parse : string -> option R.
Variable extractInstructionsFromJson : R -> list (TimelineInstruction P).
Variable extractDataFromTimelineEntry : TimelineEntry P -> option T.

Let extract :=
  extractDataFromResponse JSON_parse extractInstructionsFromJson
    extractDataFromTimelineEntry.

(** The call throws a [SyntaxError] exactly when the body does not parse,
    and returns a list exactly when the body parses and the first
    instruction tagged ['TimelineAddEntries'] exists and has entries. *)
Theorem extractDataFromResponse_completion (response : XMLHttpRequest) :
  (extract response = Throw SyntaxError
   <-> JSON_parse (responseText response) = None) /\
  ((exists out, extract response = Normal out)
   <-> exists json before i after es,
         JSON_parse (responseText response) = Some json /\
         extractInstructionsFromJson json = before ++ i :: after /\
         (forall j, In j before -> ~ is_add_entries j) /\
         is_add_entries i /\
         entries i = Some es).
Proof.
  unfold extract, extractDataFromResponse.
  destruct (JSON_parse (responseText response)) as [json|]; simpl.
  - destruct (find _ (extractInstructionsFromJson json)) as [i|] eqn:Hfind;
      simpl.
    + apply find_split in Hfind as (before & after & Hl & Hbefore & Hi).
      apply String.eqb_eq in Hi.
      assert (Hb : forall j, In j before -> ~ is_add_entries j).
      { intros j Hj Htag. apply Hbefore in Hj.
        apply String.eqb_neq in Hj. now apply Hj. }
      destruct (entries i) as [es|] eqn:Hes; simpl.
      * split; [split; discriminate|]. split.
        -- intros _. now exists json, before, i, after, es.
        -- intros _. eexists. reflexivity.
      * split; [split; discriminate|]. split.
        -- intros (out & H). discriminate H.
        -- intros (json' & before' & i' & after' & es' & Hj & Hl' & Hb' & Hi'
                   & Hes').
           injection Hj as <-. rewrite Hl' in Hl.
           assert (E : find (fun j => String.eqb (instruction_type j)
                                        "TimelineAddEntries")
                         (before' ++ i' :: after') = Some i')
             by now apply find_first.
           rewrite Hl in E. rewrite (@find_first _ before after i Hb Hi) in E.
           injection E as ->. congruence.
    + split; [split; discriminate|]. split.
      * intros (out & H). discriminate H.
      * intros (json' & before' & i' & after' & es' & Hj & Hl' & Hb' & Hi' & _).
        injection Hj as <-. rewrite Hl' in Hfind.
        rewrite (@find_first _ before' after' i' Hb' Hi') in Hfind.
        discriminate Hfind.
  - split; [split; reflexivity|]. split.
    + intros (out & H). discriminate H.
    + intros (json & _ & _ & _ & _ & H & _). discriminate H.
Qed.

(** Only the first instruction tagged ['TimelineAddEntries'] is read: two
    bodies whose first tagged instruction is the same give the same result,
    whatever else their instruction lists hold. *)
Theorem extractDataFromResponse_first_instruction
  (response1 response2 : XMLHttpRequest) (json1 json2 : R)
  (before1 before2 after1 after2 : list (TimelineInstruction P))
  (i : TimelineInstruction P) :
  JSON_parse (responseText response1) = Some json1 ->
  JSON_parse (responseText response2) = Some json2 ->
  extractInstructionsFromJson json1 = before1 ++ i :: after1 ->
  extractInstructionsFromJson json2 = before2 ++ i :: after2 ->
  (forall j, In j before1 -> ~ is_add_entries j) ->
  (forall j, In j before2 -> ~ is_add_entries j) ->
  is_add_entries i ->
  extract response1 = extract response2.
Proof.
  intros Hp1 Hp2 Hl1 Hl2 Hb1 Hb2 Hi.
  unfold extract, extractDataFromResponse.
  rewrite Hp1, Hp2. simpl. rewrite Hl1, Hl2.
  rewrite (@find_first _ before1 after1 i Hb1 Hi).
  rewrite (@find_first _ before2 after2 i Hb2 Hi). reflexivity.
Qed.

(** Module entries (conversation threads) are never handed to the
    extractor: a list of entries made of modules only gives the empty
    list. *)
Theorem extractDataFromResponse_modules_dropped
  (response : XMLHttpRequest) (json : R)
  (before after : list (TimelineInstruction P)) (i : TimelineInstruction P)
  (es : list (TimelineEntry P)) :
  JSON_parse (responseText response) = Some json ->
  extractInstructionsFromJson json = before ++ i :: after ->
  (forall j, In j before -> ~ is_add_entries j) ->
  is_add_entries i ->
  entries i = Some es ->
  Forall (fun e => isTimelineEntryModule e = true) es ->
  extract response = Normal [].
Proof.
  intros Hp Hl Hb Hi Hes Hmod.
  unfold extract, extractDataFromResponse.
  rewrite Hp. simpl. rewrite Hl, (@find_first _ before after i Hb Hi).
  simpl. rewrite Hes. simpl. f_equal.
  rewrite loop_extracted. simpl. clear Hes.
  induction Hmod as [|e es' He _ IH]; [reflexivity|].
  simpl. now rewrite (item_not_module _ He).
Qed.

End ResponseDecoderFurther.

Lemma extractDataFromResponse_first_instruction_witness :
  extractDataFromResponse longer_parse (fun j => j) sample_extractor (mkXHR "{}")
  = extractDataFromResponse longer_parse (fun j => j) sample_extractor
      (mkXHR "{more}").
Proof.
  apply (@extractDataFromResponse_first_instruction _ _ _ longer_parse
           (fun j => j) sample_extractor (mkXHR "{}") (mkXHR "{more}")
           sample_instructions (sample_instructions ++ later_instructions)
           [mkInstruction "TimelineClearCache" None]
           [mkInstruction "TimelineClearCache" None] [] later_instructions
           (mkInstruction "TimelineAddEntries" (Some sample_entries)));
    try reflexivity; intros j [<-|[]]; discriminate.
Defined.

Lemma extractDataFromResponse_modules_dropped_witness :
  extractDataFromResponse longer_parse (fun j => j) sample_extractor
    (mkXHR "{modules}") = Normal [].
Proof.
  apply (@extractDataFromResponse_modules_dropped _ _ _ longer_parse
           (fun j => j) sample_extractor (mkXHR "{modules}")
           [mkInstruction "TimelineAddEntries" (Some module_entries)]
           [] [] (mkInstruction "TimelineAddEntries" (Some module_entries))
           module_entries); try reflexivity.
  - intros j [].
  - repeat constructor.
Defined.

Lemma extractDataFromResponse_completion_witness :
  extractDataFromResponse longer_parse (fun j => j) sample_extractor
    (mkXHR "not json") = Throw SyntaxError /\
  exists out,
    extractDataFromResponse longer_parse (fun j => j) sample_extractor
      (mkXHR "{}") = Normal out.
Proof.
  split.
  - apply (proj1 (@extractDataFromResponse_completion _ _ _ longer_parse
                    (fun j => j) sample_extractor (mkXHR "not json"))).
    reflexivity.
  - apply (proj2 (@extractDataFromResponse_completion _ _ _ longer_parse
                    (fun j => j) sample_extractor (mkXHR "{}"))).
    exists sample_instructions, [mkInstruction "TimelineClearCache" None],
      (mkInstruction "TimelineAddEntries" (Some sample_entries)), [],
      sample_entries.
    repeat split. intros j [<-|[]]. discriminate.
Defined.

(** ** Entry classifiers *)

Lemma prefix_tweet_not_user (s : string) :
  startsWith s "tweet-" = true -> startsWith s "user-" = false.
Proof.
  unfold startsWith. destruct s as [|c s]; cbn [prefix]; [discriminate|].
  destruct (ascii_dec "t" c) as [<-|]; [|discriminate].
  intros _. now destruct (ascii_dec "u" "t").
Qed.

Lemma and_then_true (a : bool) (b : completion bool) :
  and_then a b = Normal true <-> a = true /\ b = Normal true.
Proof.
  destruct a; simpl; split; try tauto.
  - intros H. discriminate H.
  - intros [H _]. discriminate H.
Qed.

Lemma and_then_throw (a : bool) (b : completion bool) (err : JsError) :
  and_then a b = Throw err <-> a = true /\ b = Throw err.
Proof.
  destruct a; simpl; split; try tauto.
  - intros H. discriminate H.
  - intros [H _]. discriminate H.
Qed.

Section Classifiers.

Context {P : Type} `{HasTypename P}.

(** No entry is both a tweet entry and a user entry; an entry of either
    kind is an item entry and no module entry. *)
Theorem tweet_and_user_entries_disjoint (entry : TimelineEntry P) :
  (isTimelineEntryTweet entry = Normal true ->
   isTimelineEntryUser entry = Normal false) /\
  (isTimelineEntryUser entry = Normal true ->
   isTimelineEntryTweet entry = Normal false) /\
  (isTimelineEntryTweet entry = Normal true \/
   isTimelineEntryUser entry = Normal true ->
   isTimelineEntryItem entry = true /\ isTimelineEntryModule entry = false).
Proof.
  unfold isTimelineEntryTweet, isTimelineEntryUser. split; [|split].
  - intros Ht. apply and_then_true in Ht as [-> Ht].
    apply and_then_true in Ht as [Hp _]. simpl.
    now rewrite (prefix_tweet_not_user _ Hp).
  - intros Hu. apply and_then_true in Hu as [-> Hu].
    apply and_then_true in Hu as [Hp _]. simpl.
    destruct (startsWith (entryId entry) "tweet-") eqn:Hp'; [|reflexivity].
    rewrite (prefix_tweet_not_user _ Hp') in Hp. discriminate Hp.
  - intros Hor.
    assert (Hitem : isTimelineEntryItem entry = true)
      by (destruct Hor as [Ht|Hu];
          [now apply and_then_true in Ht | now apply and_then_true in Hu]).
    split; [assumption|].
    destruct (isTimelineEntryModule entry) eqn:Hm; [|reflexivity].
    rewrite (item_not_module _ Hm) in Hitem. discriminate Hitem.
Qed.

(** [isTimelineEntryTweet] throws, a [TypeError], exactly on an item entry
    whose id starts with [tweet-] and that has no [itemContent]; an entry
    that is no item, or has another id, is answered [false] whatever its
    content. *)
Theorem isTimelineEntryTweet_failure (entry : TimelineEntry P) :
  (forall err,
      isTimelineEntryTweet entry = Throw err
      <-> err = TypeError /\
          isTimelineEntryItem entry = true /\
          startsWith (entryId entry) "tweet-" = true /\
          itemContent (content entry) = None) /\
  (isTimelineEntryItem entry = false \/
   startsWith (entryId entry) "tweet-" = false ->
   isTimelineEntryTweet entry = Normal false).
Proof.
  unfold isTimelineEntryTweet, item_tagged. split.
  - intros err. rewrite !and_then_throw.
    destruct (itemContent (content entry)) as [c|]; simpl.
    + split.
      * intros (_ & _ & Hc). discriminate Hc.
      * intros (_ & _ & _ & Hc). discriminate Hc.
    + split.
      * intros (Hi & Hp & Hc). injection Hc as <-. now repeat split.
      * intros (-> & Hi & Hp & _). now repeat split.
  - intros [-> | Hp]; [reflexivity|].
    rewrite Hp. now destruct (isTimelineEntryItem entry).
Qed.

End Classifiers.

Lemma tweet_and_user_entries_disjoint_witness :
  isTimelineEntryUser (item_entry "tweet-1" "TimelineTweet") = Normal false.
Proof.
  apply (proj1 (tweet_and_user_entries_disjoint
                  (item_entry "tweet-1" "TimelineTweet"))).
  reflexivity.
Defined.

Lemma isTimelineEntryTweet_failure_witness :
  isTimelineEntryTweet (item_entry "user-1" "TimelineTweet") = Normal false.
Proof.
  apply (proj2 (isTimelineEntryTweet_failure
                  (item_entry "user-1" "TimelineTweet"))).
  right. reflexivity.
Defined.

(** ** Tweet extractors *)

Lemma unwrap_payload (x : TweetValue) :
  is_tweet_payload x ->
  exists t, extractTweetWithVisibility x = TweetObject t /\ is_tweet t /\
            (x = TweetObject t \/
             exists w, x = VisibilityObject w /\ t = tweet w).
Proof.
  destruct x as [| |t|w]; simpl; try contradiction.
  - intros Ht. exists t. unfold is_tweet in Ht.
    rewrite unwrap_other by (simpl; rewrite Ht; discriminate).
    repeat split; auto.
  - intros [Hw Ht]. exists (tweet w).
    rewrite unwrap_tagged by (simpl; congruence).
    repeat split; eauto.
Qed.

(** On an item content of the declared type, [extractTimelineTweet] returns
    a tweet object, never a wrapper, [null] or [undefined]: the payload
    itself, or the tweet inside the wrapper. *)
Theorem extractTimelineTweet_unwrapped (itemContent : TimelineTweet) :
  is_tweet_payload (result (tweet_results itemContent)) ->
  exists t,
    extractTimelineTweet itemContent = TweetObject t /\ is_tweet t /\
    (result (tweet_results itemContent) = TweetObject t \/
     exists w, result (tweet_results itemContent) = VisibilityObject w /\
               t = tweet w).
Proof.
  apply unwrap_payload.
Qed.

Lemma extractTimelineTweet_unwrapped_witness :
  exists t,
    extractTimelineTweet (mkTimelineTweet "TimelineTweet"
                            (mkTweetResult sample_wrapper))
    = TweetObject t /\ is_tweet t /\
    (sample_wrapper = TweetObject t \/
     exists w, sample_wrapper = VisibilityObject w /\ t = tweet w).
Proof.
  apply (extractTimelineTweet_unwrapped
           (mkTimelineTweet "TimelineTweet" (mkTweetResult sample_wrapper))).
  simpl. split; reflexivity.
Defined.




(** What [extractTweetMedia] returns follows from what
    [extractRetweetedTweet] returns: the media of the retweeted tweet when
    that is a tweet object, the tweet's own media when it is [null] or
    [undefined], and a [TypeError] when it is an object without [legacy]. *)
Theorem extractTweetMedia_by_retweet (t : Tweet) :
  (forall target,
      extractRetweetedTweet t = TweetObject target ->
      extractTweetMedia t = Normal (own_media target)) /\
  (extractRetweetedTweet t = JsNull \/ extractRetweetedTweet t = JsUndefined ->
   extractTweetMedia t = Normal (own_media t)) /\
  (forall w,
      extractRetweetedTweet t = VisibilityObject w ->
      extractTweetMedia t = Throw TypeError).
Proof.
  repeat split.
  - intros target E. apply extractTweetMedia_of_real. now rewrite E.
  - intros [E|E]; apply extractTweetMedia_of_real; now rewrite E.
  - intros w E. unfold extractTweetMedia. now rewrite E.
Qed.

Lemma extractTweetMedia_by_retweet_witness :
  extractTweetMedia retweet_wrapper = Normal (own_media retweet_target) /\
  extractTweetMedia untagged_retweet = Throw TypeError.
Proof.
  split.
  - apply (proj1 (extractTweetMedia_by_retweet retweet_wrapper)). reflexivity.
  - apply (proj2 (proj2 (extractTweetMedia_by_retweet untagged_retweet))
             (mkVisibility "TweetTombstone" sample_tweet)).
    reflexivity.
Defined.

(** ** Screen name: the call always returns *)

Ltac missing_field :=
  eexists _, _; split; [reflexivity|]; right; split; [reflexivity|];
  split; [intros ? (? & ? & ? & ? & ? & ? & ?); congruence|];
  split; [reflexivity|]; eexists; reflexivity.

(** Whatever the tweet, [extractTweetUserScreenName] completes normally;
    it only appends to the console and to the logging sink, one entry to
    each when it answers ["READ_ERROR"] for a missing field and none
    otherwise. *)
Theorem extractTweetUserScreenName_total (t : Tweet) (s : Sinks) :
  exists v s',
    extractTweetUserScreenName t s = (Normal v, s') /\
    ((s' = s /\ exists l, PathTo t l /\ v = screen_name l) \/
     (v = Some "READ_ERROR" /\ (forall l, ~ PathTo t l) /\
      console s' = console s ++ [t] /\
      exists ev, logger s' = logger s ++ [ev])).
Proof.
  unfold extractTweetUserScreenName, screen_name_path.
  destruct (core t) as [c|] eqn:Hc; simpl;
    [destruct (user_results c) as [ur|] eqn:Hur; simpl;
     [destruct (user_result ur) as [u|] eqn:Hu; simpl;
      [destruct (user_legacy u) as [l|] eqn:Hl; simpl|]|]|].
  - eexists _, _. split; [reflexivity|]. left. split; [reflexivity|].
    exists l. split; [now exists c, ur, u | reflexivity].
  - missing_field.
  - missing_field.
  - missing_field.
  - missing_field.
Qed.

(** ** Videos whose first variant is not exceeded *)

Lemma scan_not_exceeded (vs : list Variant) (cur : Variant) :
  Forall (fun v => (effective_bitrate v <= effective_bitrate cur)%N) vs ->
  fold_left keep_greater vs (Some cur) = Some cur.
Proof.
  induction 1 as [|v vs Hv _ IH]; [reflexivity|].
  simpl. rewrite keep_greater_some.
  now rewrite (proj2 (N.ltb_ge _ _) Hv).
Qed.

(** For a video or an animated GIF whose later variants have no greater
    bitrate than the first (so also when no variant has a bitrate, as for
    GIFs), the URL of the first variant is returned, not the base URL. *)
Theorem getMediaOriginalUrl_first_variant (m : Media) (v0 : Variant)
  (vs : list Variant) :
  type m = "video" \/ type m = "animated_gif" ->
  variant_list m = v0 :: vs ->
  Forall (fun v => (effective_bitrate v <= effective_bitrate v0)%N) vs ->
  getMediaOriginalUrl m = url v0.
Proof.
  intros Hty Hl Hvs. rewrite (getMediaOriginalUrl_scan m Hty), Hl. simpl.
  rewrite keep_greater_some, N.ltb_irrefl, (@scan_not_exceeded vs v0 Hvs).
  reflexivity.
Qed.

Lemma getMediaOriginalUrl_first_variant_witness :
  getMediaOriginalUrl sample_gif = "https://video.twimg.com/tweet_video/x.mp4".
Proof.
  apply (@getMediaOriginalUrl_first_variant sample_gif
           (mkVariant (Some 0%N) "https://video.twimg.com/tweet_video/x.mp4")
           [mkVariant None "https://video.twimg.com/tweet_video/y.mp4"]).
  - now right.
  - reflexivity.
  - repeat constructor. discriminate.
Defined.

Lemma extractTweetUserScreenName_total_witness :
  exists v s',
    extractTweetUserScreenName tweet_without_user no_sinks = (Normal v, s') /\
    ((s' = no_sinks /\
      exists l, PathTo tweet_without_user l /\ v = screen_name l) \/
     (v = Some "READ_ERROR" /\ (forall l, ~ PathTo tweet_without_user l) /\
      console s' = console no_sinks ++ [tweet_without_user] /\
      exists ev, logger s' = logger no_sinks ++ [ev])).
Proof.
  exact (extractTweetUserScreenName_total tweet_without_user no_sinks).
Defined.

(** ** File extensions of plain and rewritten URLs *)

(** The first position of a URL at which one of the three forms starts
    decides the extension. *)
Lemma leftmost_extension (url before s ext : string) :
  url = (before ++ s)%string ->
  ExtensionAt s ext ->
  (forall b' s' e',
      url = (b' ++ s')%string ->
      String.length b' < String.length before ->
      ~ ExtensionAt s' e') ->
  getFileExtensionFromUrl url = ext.
Proof.
  intros Hurl Hat Hfirst.
  destruct (extension_found (0 + List.length (chars before)) Hat)
    as (y0 & Hy0 & Hcap0).
  assert (Hsplit0 : chars url = chars before ++ chars s)
    by (now rewrite Hurl, chars_app).
  unfold getFileExtensionFromUrl, exec.
  change (List.length (groups_of file_extension_regex)) with 3.
  unfold no_captures in Hy0.
  destruct (exec_from file_extension_regex 3 0 (chars url)) as [arr|] eqn:E.
  - apply exec_from_some in E as (b & rest & y & Hsplit & Hm & -> & Hmin).
    cbn [repeat] in Hm, Hmin.
    destruct (Nat.lt_trichotomy (List.length (chars before)) (List.length b))
      as [Hlt | [Heq | Hgt]].
    + rewrite (Hmin (chars before) (chars s) Hsplit0 Hlt) in Hy0.
      discriminate.
    + rewrite Hsplit in Hsplit0.
      destruct (app_split_length _ _ _ _ Hsplit0 (eq_sym Heq)) as [-> ->].
      rewrite Hy0 in Hm. injection Hm as <-.
      now apply extension_of_array.
    + exfalso. destruct (extension_exists _ _ _ Hm) as (e & He).
      apply (Hfirst (str b) (str rest) e); [now apply str_split | | assumption].
      rewrite str_length, <- chars_length. assumption.
  - exfalso.
    pose proof (exec_from_none _ _ _ E (chars before) (chars s) Hsplit0) as Hn.
    cbn [repeat] in Hn. rewrite Hn in Hy0. discriminate.
Qed.

Lemma app_split_lt {A : Type} (a b c d : list A) :
  a ++ b = c ++ d -> List.length a < List.length c ->
  exists m, m <> [] /\ c = a ++ m /\ b = m ++ d.
Proof.
  revert c. induction a as [|x a IH]; intros [|y c] H Hlen; simpl in *;
    try lia.
  - exists (y :: c). repeat split; [discriminate | assumption].
  - injection H as -> H. destruct (IH c H) as (m & Hm & -> & ->); [lia|].
    now exists m.
Qed.

(** A literal that starts a text which changes, at some point, to a
    character the literal does not have, ends before that point. *)
Lemma literal_before {A : Type} (l u rest tail : list A) (c : A) :
  u ++ c :: rest = l ++ tail -> ~ In c l -> exists u', u = l ++ u'.
Proof.
  revert u. induction l as [|a l IH]; intros u H Hc.
  - now exists u.
  - destruct u as [|b u]; simpl in H; injection H as -> H.
    + exfalso. apply Hc. now left.
    + destruct (IH u H) as (u' & ->).
      * intros Hin. apply Hc. now right.
      * now exists u'.
Qed.

Lemma word_without (w : string) (c : ascii) :
  word w -> is_word_char c = false -> ~ In c (chars w).
Proof.
  intros [_ Hw] Hc Hin. unfold all_chars in Hw.
  rewrite forallb_forall in Hw. rewrite (Hw c Hin) in Hc. discriminate Hc.
Qed.

Lemma not_format_literal (c : ascii) :
  c = "."%char \/ c = "?"%char -> ~ In c (chars "format=").
Proof.
  intros [-> | ->] H; simpl in H;
    repeat (destruct H as [H|H]; [discriminate H|]); exact H.
Qed.

(** [format=] does not start a text that has a [.] or a [?] before its
    first [=]. *)
Lemma no_format_inside (m rest : list ascii) (c : ascii) (w tail : string) :
  c = "."%char \/ c = "?"%char ->
  ~ In "="%char m ->
  m ++ c :: rest = chars ("format=" ++ w ++ tail) -> False.
Proof.
  intros Hc Hm H. rewrite chars_app in H.
  destruct (@literal_before _ (chars "format=") m rest _ c H
              (not_format_literal Hc)) as (u' & ->).
  apply Hm. apply in_or_app. left. simpl. tauto.
Qed.

Lemma dotted_extension (b ext : string) :
  without "=" b -> without "?" b -> word ext ->
  getFileExtensionFromUrl (b ++ "." ++ ext) = ext.
Proof.
  intros Heq Hq Hw.
  apply leftmost_extension with (before := b) (s := ("." ++ ext)%string);
    [reflexivity | now apply at_trailing |].
  intros b' s' e' Hurl Hlen Hat.
  apply (f_equal chars) in Hurl. rewrite !chars_app in Hurl.
  rewrite <- !chars_length in Hlen.
  symmetry in Hurl.
  destruct (app_split_lt _ _ _ _ Hurl Hlen) as (m & Hm & Hb & Hs).
  assert (Hin : forall c, In c m -> In c (chars b))
    by (intros c Hc; rewrite Hb; apply in_or_app; now right).
  cbn [chars app] in Hs.
  destruct Hat as [w rest Hw' He | w Hw' | w q Hw' Hq' Hl].
  - apply (@no_format_inside m (chars ext) "." w rest); auto.
  - rewrite chars_app in Hs. cbn [chars app] in Hs.
    destruct m as [|c m]; [congruence|]. injection Hs as <- Hs.
    apply (@word_without w "." Hw'); [reflexivity|].
    rewrite Hs. apply in_or_app. right. now left.
  - assert (Hin' : In "?"%char (m ++ "."%char :: chars ext)).
    { rewrite <- Hs, !chars_app. cbn [chars app]. right.
      apply in_or_app. right. now left. }
    apply in_app_or in Hin' as [Hin' | [Hin' | Hin']].
    + apply Hq. now apply Hin.
    + discriminate Hin'.
    + now apply (@word_without ext "?" Hw).
Qed.

Lemma question_mark_inside (w r m rest : list ascii) :
  forallb is_word_char w = true ->
  w ++ "?"%char :: r = m ++ "."%char :: rest -> In "?"%char m.
Proof.
  revert m. induction w as [|a w IH]; intros [|c m] Hw H; simpl in *;
    try discriminate H.
  - injection H as <- _. now left.
  - injection H as -> _. discriminate Hw.
  - injection H as _ H. apply andb_true_iff in Hw as [_ Hw].
    right. now apply (IH m).
Qed.

Lemma dotted_query_extension (b ext q : string) :
  without "=" b -> without "?" b -> word ext ->
  q <> "" -> all_chars not_line_terminator q ->
  getFileExtensionFromUrl (b ++ "." ++ ext ++ "?" ++ q) = ext.
Proof.
  intros Heq Hq Hw Hne Hl.
  apply leftmost_extension
    with (before := b) (s := ("." ++ ext ++ "?" ++ q)%string);
    [reflexivity | now apply at_query |].
  intros b' s' e' Hurl Hlen Hat.
  apply (f_equal chars) in Hurl. rewrite !chars_app in Hurl.
  rewrite <- !chars_length in Hlen.
  symmetry in Hurl.
  destruct (app_split_lt _ _ _ _ Hurl Hlen) as (m & Hm & Hb & Hs).
  assert (Hin : forall c, In c m -> In c (chars b))
    by (intros c Hc; rewrite Hb; apply in_or_app; now right).
  cbn [chars app] in Hs.
  destruct Hat as [w rest Hw' He | w Hw' | w r Hw' Hr' Hl'].
  - apply (@no_format_inside m (chars ext ++ "?"%char :: chars q) "." w rest);
      auto.
  - rewrite chars_app in Hs. cbn [chars app] in Hs.
    destruct m as [|c m]; [congruence|]. injection Hs as <- Hs.
    apply (@word_without w "." Hw'); [reflexivity|].
    rewrite Hs. apply in_or_app. right. now left.
  - rewrite !chars_app in Hs. cbn [chars app] in Hs.
    destruct m as [|c m]; [congruence|]. injection Hs as <- Hs.
    apply Hq, Hin. right.
    apply (@question_mark_inside (chars w) (chars r) m
             (chars ext ++ "?"%char :: chars q)); [apply Hw' | exact Hs].
Qed.

Lemma no_extension_jpg (url : string) :
  (forall before s ext, url = (before ++ s)%string -> ~ ExtensionAt s ext) ->
  getFileExtensionFromUrl url = "jpg".
Proof.
  intros Hnone. unfold getFileExtensionFromUrl, exec.
  change (List.length (groups_of file_extension_regex)) with 3.
  destruct (exec_from file_extension_regex 3 0 (chars url)) as [arr|] eqn:E;
    [|reflexivity].
  exfalso.
  apply exec_from_some in E as (before & rest & y & Hsplit & Hm & _).
  destruct (extension_exists _ _ _ Hm) as (ext & Hext).
  apply (Hnone (str before) (str rest) ext); [now apply str_split | assumption].
Qed.

(** A URL that ends in a dot and a word, or in a dot, a word and a query
    string, with no [=] and no [?] before the dot, has that word as its
    extension. *)
Theorem getFileExtensionFromUrl_dotted (b ext : string) :
  without "=" b -> without "?" b -> word ext ->
  getFileExtensionFromUrl (b ++ "." ++ ext) = ext /\
  (forall q, q <> "" -> all_chars not_line_terminator q ->
             getFileExtensionFromUrl (b ++ "." ++ ext ++ "?" ++ q) = ext).
Proof.
  intros Heq Hq Hw. split.
  - now apply dotted_extension.
  - intros q Hne Hl. now apply dotted_query_extension.
Qed.

Lemma getFileExtensionFromUrl_dotted_witness :
  getFileExtensionFromUrl
    "https://video.twimg.com/ext_tw_video/1724535034051166208/pu/vid/avc1/1508x1080/xU8GJO6bXmUurBIf.mp4"
  = "mp4" /\
  getFileExtensionFromUrl
    "https://video.twimg.com/ext_tw_video/1724535034051166208/pu/vid/avc1/1508x1080/xU8GJO6bXmUurBIf.mp4?tag=14"
  = "mp4".
Proof.
  destruct (@getFileExtensionFromUrl_dotted
              "https://video.twimg.com/ext_tw_video/1724535034051166208/pu/vid/avc1/1508x1080/xU8GJO6bXmUurBIf"
              "mp4") as [H1 H2].
  - unfold without. simpl. intuition discriminate.
  - unfold without. simpl. intuition discriminate.
  - split; [discriminate | reflexivity].
  - split; [exact H1|]. apply (H2 "tag=14"); [discriminate | reflexivity].
Defined.

(** A URL without [=] and [?] in which no dot is followed by a word up to
    the end has the extension ["jpg"]. *)
Theorem getFileExtensionFromUrl_default (url : string) :
  without "=" url -> without "?" url ->
  (forall b ext, url = (b ++ "." ++ ext)%string -> ~ word ext) ->
  getFileExtensionFromUrl url = "jpg".
Proof.
  intros Heq Hq Hdots. apply no_extension_jpg.
  intros before s ext -> Hat.
  assert (Hin : forall c, In c (chars s) -> In c (chars (before ++ s)))
    by (intros c Hc; rewrite chars_app; apply in_or_app; now right).
  destruct Hat as [w rest Hw He | w Hw | w q Hw Hne Hl].
  - apply Heq, Hin. rewrite !chars_app. simpl. tauto.
  - now apply (Hdots before w).
  - apply Hq, Hin. rewrite !chars_app. simpl. right.
    apply in_or_app. right. now left.
Qed.

Lemma getFileExtensionFromUrl_default_witness :
  getFileExtensionFromUrl "https://pbs.twimg.com/profile_banners/4686835494/1698680296"
  = "jpg".
Proof.
  apply getFileExtensionFromUrl_default.
  - unfold without. simpl. intuition discriminate.
  - unfold without. simpl. intuition discriminate.
  - intros b ext Hurl [_ Hw]. apply (f_equal chars) in Hurl.
    rewrite !chars_app in Hurl. cbn [chars app] in Hurl.
    apply (f_equal (@rev ascii)) in Hurl. rewrite rev_app_distr in Hurl.
    simpl in Hurl. rewrite <- app_assoc in Hurl. simpl in Hurl.
    destruct (@run_unique is_word_char (rev (chars "1698680296")) (rev (chars ext))
                ("/"%char :: rev (chars "https://pbs.twimg.com/profile_banners/4686835494"))
                ("."%char :: rev (chars b))) as [_ Hb];
      try reflexivity.
    + now apply forallb_rev.
    + exact Hurl.
    + discriminate Hb.
Defined.

(** ** Rewritten image URLs *)

(** What [exec] finds for the pattern of [formatTwitterImage]. *)
Lemma twitter_image_exec (url : string) :
  (exists base ext,
      MediaUrl url base ext /\
      exists whole,
        exec twitter_image_regex url = Some [Some whole; Some base; Some ext])
  \/ ((forall base ext, ~ MediaUrl url base ext) /\
      exec twitter_image_regex url = None).
Proof.
  unfold exec. change (List.length (groups_of twitter_image_regex)) with 2.
  destruct (exec_from twitter_image_regex 2 0 (chars url)) as [arr|] eqn:E.
  - left.
    apply exec_from_some in E as (before & rest & y & Hsplit & Hm & -> & _).
    cbn [repeat] in Hm.
    apply twitter_image_sound in Hm as (Hi & b & e & Hshape & Hcap).
    destruct before as [|a before]; [|discriminate Hi].
    simpl in Hsplit. subst rest.
    rewrite string_of_list_ascii_of_string in Hshape.
    exists (str b), (str e). split; [assumption|].
    unfold match_array. rewrite Hcap. simpl. eexists. reflexivity.
  - right. split; [|reflexivity].
    intros base ext Hurl.
    destruct (twitter_image_complete Hurl) as (y0 & Hy0).
    pose proof (exec_from_none _ _ _ E [] (chars url) eq_refl) as Hn.
    cbn [repeat List.length Nat.add] in Hn. rewrite Hn in Hy0. discriminate.
Qed.

Lemma formatTwitterImage_media (url base ext : string) (name : option ImageSize) :
  MediaUrl url base ext ->
  formatTwitterImage url name
  = (base ++ "?format=" ++ ext ++ "&name=" ++ size_name (name ?? medium))%string.
Proof.
  intros Hurl. unfold formatTwitterImage.
  destruct (twitter_image_exec url)
    as [(b & e & Hshape & whole & ->) | [Hnone _]].
  - destruct (media_url_unique Hurl Hshape) as [-> ->]. reflexivity.
  - now destruct (Hnone base ext).
Qed.

Lemma size_name_word (name : ImageSize) :
  forallb is_word_char (chars (size_name name)) = true.
Proof.
  now destruct name.
Qed.

Ltac flatten_app :=
  repeat (rewrite <- app_assoc || rewrite <- app_comm_cons
          || (progress (cbn [app]))).

(** What [formatTwitterImage] returns ends in [=<size>]. *)
Lemma formatTwitterImage_ending (url : string) (name : option ImageSize) :
  exists pre,
    chars (formatTwitterImage url name)
    = pre ++ "="%char :: chars (size_name (name ?? medium)).
Proof.
  unfold formatTwitterImage.
  destruct (exec twitter_image_regex url) as [m|].
  - exists (chars (interpolate (at_index m 1) ++ "?format="
                   ++ interpolate (at_index m 2) ++ "&name")%string).
    rewrite !chars_app. cbn [chars]. now flatten_app.
  - exists (chars (url ++ "?name")%string).
    rewrite !chars_app. cbn [chars]. now flatten_app.
Qed.

Lemma formatted_is_no_media_url (url : string) (name : option ImageSize)
  (base ext : string) :
  ~ MediaUrl (formatTwitterImage url name) base ext.
Proof.
  intros H.
  apply media_url_chars in H as (_ & _ & _ & _ & _ & _ & Hw & _ & Hu).
  destruct (formatTwitterImage_ending url name) as (pre & Hpre).
  rewrite Hpre in Hu. apply (f_equal (@rev ascii)) in Hu.
  rewrite !rev_app_distr in Hu. simpl in Hu. rewrite <- !app_assoc in Hu.
  simpl in Hu.
  destruct (@run_unique is_word_char
              (rev (chars (size_name (name ?? medium)))) (rev (chars ext))
              ("="%char :: rev pre) ("."%char :: rev (chars base)))
    as [_ Hb]; try reflexivity; try assumption.
  - apply forallb_rev, size_name_word.
  - now apply forallb_rev.
  - discriminate Hb.
Qed.

(** [formatTwitterImage] does not recognise what it returns: applied to its
    own result, for any URL and sizes, it appends a second [?name=<size>]. *)
Theorem formatTwitterImage_again (url : string) (name1 name2 : option ImageSize) :
  formatTwitterImage (formatTwitterImage url name1) name2
  = (formatTwitterImage url name1 ++ "?name="
       ++ size_name (name2 ?? medium))%string.
Proof.
  unfold formatTwitterImage at 1.
  destruct (twitter_image_exec (formatTwitterImage url name1))
    as [(b & e & Hshape & _) | [_ ->]]; [|reflexivity].
  now apply formatted_is_no_media_url in Hshape.
Qed.

(** ** Photos: the extension survives the rewriting *)

Lemma key_char_plain (c : ascii) :
  is_key_char c = true ->
  c <> "."%char /\ c <> "/"%char /\ c <> "="%char /\ c <> "?"%char /\
  not_line_terminator c = true.
Proof.
  intros H. repeat split; try (intros ->; discriminate H).
  unfold is_key_char in H. apply orb_true_iff in H as [H|H].
  - unfold is_word_char in H. unfold not_line_terminator, is_line_terminator.
    unfold in_range in H.
    repeat (apply orb_true_iff in H as [H|H]);
      try (apply andb_true_iff in H as [H1 H2];
           apply N.leb_le in H1; apply N.leb_le in H2;
           apply negb_true_iff, orb_false_iff; split; apply N.eqb_neq; lia).
    apply Ascii.eqb_eq in H. now subst c.
  - apply Ascii.eqb_eq in H. now subst c.
Qed.

Lemma key_chars_plain (body : string) (c : ascii) :
  all_chars is_key_char body -> In c (chars body) -> is_key_char c = true.
Proof.
  unfold all_chars. rewrite forallb_forall. auto.
Qed.

Lemma key_chars_no_terminator (body : string) :
  all_chars is_key_char body -> all_chars not_line_terminator body.
Proof.
  unfold all_chars. rewrite !forallb_forall. intros H c Hc.
  now apply key_char_plain, H.
Qed.

(** In an address of the media host whose key has key characters only, no
    dot is followed by word characters up to the end of the address. *)
Lemma media_address_dots (scheme body : string) (x m : list ascii) :
  all_chars is_key_char body ->
  chars (scheme ++ "://pbs.twimg.com/media/" ++ body) = x ++ "."%char :: m ->
  forallb is_word_char m = true -> False.
Proof.
  intros Hbody Hsplit Hm.
  rewrite !chars_app in Hsplit.
  change (chars "://pbs.twimg.com/media/")
    with (chars "://pbs.twimg.com/media" ++ ["/"%char]) in Hsplit.
  rewrite <- !app_assoc in Hsplit. cbn [app] in Hsplit.
  rewrite app_assoc in Hsplit.
  apply (f_equal (@rev ascii)) in Hsplit.
  rewrite !rev_app_distr in Hsplit. cbn [rev] in Hsplit.
  rewrite <- !app_assoc in Hsplit. cbn [app] in Hsplit.
  assert (H1 : forallb inside_segment (rev (chars body)) = true).
  { apply forallb_rev. apply forallb_forall. intros c Hc.
    destruct (@key_char_plain c (@key_chars_plain body c Hbody Hc))
      as (Hd & Hs & _).
    unfold inside_segment.
    apply andb_true_iff; split; apply negb_true_iff, Ascii.eqb_neq; assumption. }
  assert (H2 : forallb inside_segment (rev m) = true).
  { apply forallb_rev. apply forallb_forall. intros c Hc.
    rewrite forallb_forall in Hm. specialize (Hm c Hc).
    unfold inside_segment.
    apply andb_true_iff; split; apply negb_true_iff, Ascii.eqb_neq;
      intros ->; discriminate Hm. }
  destruct (@run_unique inside_segment _ _ ("/"%char :: _) ("."%char :: _)
              H1 H2 eq_refl eq_refl Hsplit) as [_ Hb].
  discriminate Hb.
Qed.

Lemma media_address_without (scheme body : string) (c : ascii) :
  scheme = "http" \/ scheme = "https" ->
  all_chars is_key_char body ->
  c = "="%char \/ c = "?"%char ->
  ~ In c (chars (scheme ++ "://pbs.twimg.com/media/" ++ body)).
Proof.
  intros Hs Hbody Hc Hin. rewrite !chars_app in Hin.
  apply in_app_or in Hin as [Hin|Hin];
    [|apply in_app_or in Hin as [Hin|Hin]].
  - destruct Hs as [-> | ->], Hc as [-> | ->]; simpl in Hin;
      repeat (destruct Hin as [Hin|Hin]; [discriminate Hin|]); exact Hin.
  - destruct Hc as [-> | ->]; simpl in Hin;
      repeat (destruct Hin as [Hin|Hin]; [discriminate Hin|]); exact Hin.
  - destruct (@key_char_plain c (@key_chars_plain body c Hbody Hin))
      as (_ & _ & H3 & H4 & _).
    destruct Hc as [-> | ->]; congruence.
Qed.

Lemma string_app_assoc (a b c : string) :
  ((a ++ b) ++ c = a ++ b ++ c)%string.
Proof.
  apply chars_inj. rewrite !chars_app. now rewrite app_assoc.
Qed.

Lemma first_char_of_form (s ext : string) :
  ExtensionAt s ext ->
  exists rest, chars s = "f"%char :: rest \/ chars s = "."%char :: rest.
Proof.
  intros [w rest _ _ | w _ | w q _ _ _]; eexists; [left | right | right];
    reflexivity.
Qed.

(** For a photo whose URL is an address of the media host with a key of
    key characters and an extension, [getMediaOriginalUrl] gives the
    [?format=<ext>&name=orig] form and [getFileExtensionFromUrl] finds the
    same extension in it. *)
Theorem photo_original_url_extension (m : Media) (scheme key ext : string) :
  type m <> "video" -> type m <> "animated_gif" ->
  scheme = "http" \/ scheme = "https" ->
  key <> "" -> all_chars is_key_char key -> word ext ->
  media_url_https m = (media_base scheme key ++ "." ++ ext)%string ->
  getMediaOriginalUrl m
  = (media_base scheme key ++ "?format=" ++ ext ++ "&name=orig")%string /\
  getFileExtensionFromUrl (getMediaOriginalUrl m) = ext.
Proof.
  intros Hv Hg Hs Hne Hkey Hw Hurl.
  assert (Horig : getMediaOriginalUrl m
                  = (media_base scheme key ++ "?format=" ++ ext
                       ++ "&name=orig")%string).
  { unfold getMediaOriginalUrl.
    rewrite (proj2 (String.eqb_neq _ _) Hv), (proj2 (String.eqb_neq _ _) Hg).
    simpl. apply (@formatTwitterImage_media _ (media_base scheme key) ext).
    exists scheme, key.
    split; [assumption|]. split; [reflexivity|]. split; [assumption|].
    split; [now apply key_chars_no_terminator|]. now split. }
  split; [exact Horig|]. rewrite Horig.
  apply leftmost_extension
    with (before := (media_base scheme key ++ "?")%string)
         (s := ("format=" ++ ext ++ "&name=orig")%string).
  - now rewrite string_app_assoc.
  - now apply at_format.
  - intros b' s' e' Hsplit Hlen Hat.
    apply (f_equal chars) in Hsplit. rewrite !chars_app in Hsplit.
    rewrite <- !chars_length, chars_app in Hlen.
    cbn [chars app] in Hsplit, Hlen. rewrite length_app in Hlen.
    cbn [List.length] in Hlen. symmetry in Hsplit.
    set (F := chars "format=" ++ chars ext ++ chars "&name=orig") in *.
    destruct (Nat.eq_dec (List.length (chars b'))
                (List.length (chars (media_base scheme key)))) as [Heq|Hneq].
    + destruct (app_split_length _ _ _ _ Hsplit Heq) as [_ Hs'].
      destruct (first_char_of_form Hat) as (rest & [E|E]);
        rewrite E in Hs'; discriminate Hs'.
    + destruct (app_split_lt _ _ _ _ Hsplit) as (x & Hx & Hb & Hs'); [lia|].
      assert (Hno : forall c, c = "="%char \/ c = "?"%char -> ~ In c x).
      { intros c Hc Hin.
        apply (@media_address_without scheme key c Hs Hkey Hc).
        fold (media_base scheme key). rewrite Hb. apply in_or_app. now right. }
      destruct Hat as [w rest Hw' He | w Hw' | w q Hw' Hq' Hl].
      * apply (@no_format_inside x F "?" w rest); auto.
      * rewrite chars_app in Hs'. cbn [chars app] in Hs'.
        apply (@word_without w "?" Hw'); [reflexivity|].
        destruct x as [|c x]; [congruence|]. injection Hs' as _ Hs'.
        rewrite Hs'. apply in_or_app. right. now left.
      * rewrite !chars_app in Hs'. cbn [chars app] in Hs'.
        destruct x as [|c x]; [congruence|]. injection Hs' as <- Hs'.
        assert (H1 : forallb not_question_mark (chars w) = true).
        { apply forallb_forall. intros c Hc. unfold not_question_mark.
          apply negb_true_iff, Ascii.eqb_neq. intros ->.
          now apply (@word_without w "?" Hw'). }
        assert (H2 : forallb not_question_mark x = true).
        { apply forallb_forall. intros c Hc. unfold not_question_mark.
          apply negb_true_iff, Ascii.eqb_neq. intros ->.
          apply (Hno "?"%char); [now right | now right]. }
        destruct (@run_unique not_question_mark _ _ ("?"%char :: _)
                    ("?"%char :: _) H1 H2 eq_refl eq_refl Hs') as [Hwx _].
        apply (@media_address_dots scheme key (chars b') x Hkey).
        -- exact Hb.
        -- rewrite <- Hwx. apply Hw'.
Qed.

Lemma photo_original_url_extension_witness :
  getMediaOriginalUrl sample_photo
  = (media_base "https" "F1aT_M9-aAAEgJwi" ++ "?format=" ++ "jpg"
       ++ "&name=orig")%string /\
  getFileExtensionFromUrl (getMediaOriginalUrl sample_photo) = "jpg".
Proof.
  apply (@photo_original_url_extension sample_photo "https"
           "F1aT_M9-aAAEgJwi" "jpg"); try reflexivity; try discriminate.
  - now right.
  - split; [discriminate | reflexivity].
Defined.

(** ** Profile images *)

Lemma search_from_some (r : Regex) (n : nat) :
  forall input i p y,
    search_from r n i input = Some (p, y) ->
    exists before rest,
      input = before ++ rest /\ p = i + List.length before /\
      matcher r (mkState p rest (repeat None n)) Some = Some y.
Proof.
  induction input as [|a input IH]; intros i p y H; simpl in H.
  - destruct (matcher r _ Some) as [y0|] eqn:E; [|discriminate].
    injection H as <- <-. exists [], []. simpl. rewrite Nat.add_0_r.
    now repeat split.
  - destruct (matcher r _ Some) as [y0|] eqn:E.
    + injection H as <- <-. exists [], (a :: input). simpl.
      rewrite Nat.add_0_r. now repeat split.
    + apply IH in H as (before & rest & -> & -> & Hm).
      exists (a :: before), rest. simpl. rewrite Nat.add_succ_r.
      now repeat split.
Qed.

Lemma search_from_none (r : Regex) (n : nat) :
  forall input i,
    search_from r n i input = None ->
    forall before rest,
      input = before ++ rest ->
      matcher r (mkState (i + List.length before) rest (repeat None n)) Some
      = None.
Proof.
  induction input as [|a input IH]; intros i H before rest Hsplit;
    simpl in H.
  - destruct before; [|discriminate]. simpl in *. subst rest.
    rewrite Nat.add_0_r. now destruct (matcher r _ Some).
  - destruct (matcher r _ Some) as [y0|] eqn:E; [discriminate|].
    destruct before as [|a' before]; simpl in *.
    + subst rest. now rewrite Nat.add_0_r.
    + injection Hsplit as -> Hsplit. rewrite Nat.add_succ_r.
      apply (IH (S i) H before rest Hsplit).
Qed.

Lemma image_extension_chars (ext : string) :
  ImageExtension ext <-> ImageExtensionChars (chars ext).
Proof.
  unfold ImageExtension, ImageExtensionChars. split.
  - intros [-> | [-> | [-> | ->]]]; auto.
  - intros [H | [H | [H | H]]]; apply chars_inj in H; auto.
Qed.

Lemma image_extension_word (ext : list ascii) :
  ImageExtensionChars ext -> forallb is_word_char ext = true.
Proof.
  intros [-> | [-> | [-> | ->]]]; reflexivity.
Qed.

Lemma matches_image_extension (x y : MatchState) :
  Matches image_extension x y
  <-> exists ext, ImageExtensionChars ext /\ Consumes x ext y.
Proof.
  unfold image_extension, ImageExtensionChars. split.
  - intros [(a & Ha & b & Hb & c & Hc & ->) | [H | H]].
    + apply matches_lit in Ha. apply matches_optional_char in Hb.
      apply matches_char in Hc. destruct Hb as [Hb|Hb].
      * exists (chars "jpeg"). split; [tauto|].
        apply (consumes_trans Ha (consumes_trans Hb Hc)).
      * exists (chars "jpg"). split; [tauto|].
        apply (consumes_trans Ha (consumes_trans Hb Hc)).
    + apply matches_lit in H. exists (chars "png"). tauto.
    + apply matches_lit in H. exists (chars "gif"). tauto.
  - intros (ext & [-> | [-> | [-> | ->]]] & H).
    + left. change (chars "jpg") with (chars "jp" ++ [] ++ ["g"%char]) in H.
      apply consumes_split in H as (a & Ha & H).
      apply consumes_split in H as (b & Hb & Hc).
      exists a. split; [now apply matches_lit|].
      exists b. split; [apply matches_optional_char; now right|].
      exists y. split; [now apply matches_char | reflexivity].
    + left.
      change (chars "jpeg") with (chars "jp" ++ ["e"%char] ++ ["g"%char]) in H.
      apply consumes_split in H as (a & Ha & H).
      apply consumes_split in H as (b & Hb & Hc).
      exists a. split; [now apply matches_lit|].
      exists b. split; [apply matches_optional_char; now left|].
      exists y. split; [now apply matches_char | reflexivity].
    + right. left. now apply matches_lit.
    + right. right. now apply matches_lit.
Qed.

(** The pattern matches exactly a text [_normal.<ext>] that runs to the end
    of the input, and its group is the extension. *)
Lemma profile_image_shape (x y : MatchState) :
  Matches profile_image_regex x y ->
  exists ext,
    ImageExtensionChars ext /\
    remaining x = normal_suffix ++ ext /\
    remaining y = [] /\
    endIndex y = endIndex x + List.length (normal_suffix ++ ext) /\
    captures y = set_capture 1 ext (captures x).
Proof.
  intros (a & Ha & b & Hb & c & (g & Hg & ->) & d & [Hd ->] & ->).
  apply matches_lit in Ha. apply matches_char in Hb.
  apply matches_image_extension in Hg as (ext & Hext & Hg).
  rewrite (consumes_firstn Hg). cbn [remaining endIndex captures] in *.
  pose proof (consumes_trans Ha (consumes_trans Hb Hg)) as (Hr & Hi & Hc).
  exists ext. rewrite Hd in Hr. rewrite app_nil_r in Hr.
  repeat split; try assumption. now rewrite Hc.
Qed.

Lemma profile_image_match (i : nat) (ext : list ascii) (caps : Captures) :
  ImageExtensionChars ext ->
  exists y,
    Matches profile_image_regex (mkState i (normal_suffix ++ ext) caps) y.
Proof.
  intros Hext.
  set (x := mkState i (normal_suffix ++ ext) caps).
  set (a := mkState (i + 7) ("."%char :: ext) caps).
  set (b := mkState (i + 8) ext caps).
  set (g := mkState (i + 8 + List.length ext) [] caps).
  set (c := mkState (endIndex g) (remaining g)
              (set_capture 1 (firstn (endIndex g - endIndex b) (remaining b))
                 (captures g))).
  exists c, a. split.
  { apply matches_lit. now repeat split. }
  exists b. split.
  { apply matches_char. unfold Consumes, a, b. simpl. repeat split. lia. }
  exists c. split.
  { exists g. split; [|reflexivity]. apply matches_image_extension.
    exists ext. split; [assumption|]. unfold Consumes, b, g. simpl.
    now rewrite app_nil_r. }
  exists c. split; [now split | reflexivity].
Qed.

(** What [search_from] finds for the pattern of
    [getProfileImageOriginalUrl]. *)
Lemma profile_image_search (url : string) :
  (exists before ext y,
      ImageExtensionChars ext /\
      chars url = before ++ normal_suffix ++ ext /\
      search_from profile_image_regex 1 0 (chars url)
      = Some (List.length before, y) /\
      endIndex y = List.length (chars url) /\
      captures y = [Some ext])
  \/ ((forall base ext, ImageExtension ext ->
                        url <> (base ++ "_normal." ++ ext)%string) /\
      search_from profile_image_regex 1 0 (chars url) = None).
Proof.
  destruct (search_from profile_image_regex 1 0 (chars url)) as [[p y]|] eqn:E.
  - left. apply search_from_some in E as (before & rest & Hsplit & -> & Hm).
    apply matcher_sound in Hm as (y' & Hm & Hy). injection Hy as ->.
    apply profile_image_shape in Hm as (ext & Hext & Hr & _ & Hi & Hc).
    cbn [remaining endIndex captures repeat] in Hr, Hi, Hc. subst rest.
    exists before, ext, y. repeat split; try assumption.
    rewrite Hi, Hsplit, !length_app. reflexivity.
  - right. split; [|reflexivity]. intros base ext Hext ->.
    apply image_extension_chars in Hext.
    destruct (profile_image_match (0 + List.length (chars base))
                (repeat None 1) Hext) as (y & Hy).
    destruct (@matcher_complete profile_image_regex _ y Some y Hy eq_refl)
      as (z & Hz).
    rewrite (search_from_none _ _ _ E (chars base) (normal_suffix ++ chars ext))
      in Hz; [discriminate Hz|].
    now rewrite !chars_app.
Qed.

Lemma string_app_nil_r (s : string) : (s ++ "")%string = s.
Proof.
  apply chars_inj. rewrite chars_app. apply app_nil_r.
Qed.

Lemma strip_normal (base ext : string) :
  ImageExtension ext ->
  getProfileImageOriginalUrl (base ++ "_normal." ++ ext)
  = (base ++ "." ++ ext)%string.
Proof.
  intros Hext. unfold getProfileImageOriginalUrl, replace.
  change (List.length (groups_of profile_image_regex)) with 1.
  destruct (profile_image_search (base ++ "_normal." ++ ext))
    as [(before & e & y & He & Hsplit & -> & Hi & Hc) | [Hnone _]].
  - rewrite !chars_app in Hsplit.
    change (chars "_normal.") with (chars "_normal" ++ ["."%char]) in Hsplit.
    rewrite <- !app_assoc in Hsplit. cbn [app] in Hsplit.
    rewrite !app_assoc in Hsplit.
    apply image_extension_chars in Hext.
    destruct (@last_dot_unique _ _ _ _ (image_extension_word Hext)
                (image_extension_word He) Hsplit) as [Hb <-].
    apply app_inv_tail in Hb. subst before.
    rewrite Hi, skipn_all.
    rewrite !chars_app, firstn_app, firstn_all, Nat.sub_diag. cbn [firstn].
    rewrite app_nil_r, string_of_list_ascii_of_string.
    unfold dot_capture, match_array. rewrite Hc. cbn.
    now rewrite string_of_list_ascii_of_string, string_app_nil_r.
  - now destruct (Hnone base ext Hext).
Qed.

(** A URL that ends in [_normal.] and one of [jpg], [jpeg], [png], [gif]
    loses the [_normal] and nothing else; every other URL is returned as it
    is. *)
Theorem getProfileImageOriginalUrl_strips (url : string) :
  (forall base ext,
      ImageExtension ext -> url = (base ++ "_normal." ++ ext)%string ->
      getProfileImageOriginalUrl url = (base ++ "." ++ ext)%string) /\
  ((forall base ext, ImageExtension ext ->
                     url <> (base ++ "_normal." ++ ext)%string) ->
   getProfileImageOriginalUrl url = url).
Proof.
  split.
  - intros base ext Hext ->. now apply strip_normal.
  - intros Hnone. unfold getProfileImageOriginalUrl, replace.
    change (List.length (groups_of profile_image_regex)) with 1.
    destruct (profile_image_search url)
      as [(before & e & y & He & Hsplit & _) | [_ ->]]; [|reflexivity].
    exfalso. apply (Hnone (str before) (str e)).
    + apply image_extension_chars.
      now rewrite list_ascii_of_string_of_list_ascii.
    + apply chars_inj. rewrite Hsplit, !chars_app.
      now rewrite !list_ascii_of_string_of_list_ascii.
Qed.

(** [getProfileImageOriginalUrl] keeps the file extension that
    [getFileExtensionFromUrl] reads, for a URL without [=] and [?]. *)
Theorem getProfileImageOriginalUrl_keeps_extension (base ext : string) :
  ImageExtension ext -> without "=" base -> without "?" base ->
  getFileExtensionFromUrl
    (getProfileImageOriginalUrl (base ++ "_normal." ++ ext))
  = getFileExtensionFromUrl (base ++ "_normal." ++ ext) /\
  getFileExtensionFromUrl (base ++ "_normal." ++ ext) = ext.
Proof.
  intros Hext Heq Hq.
  assert (Hw : word ext).
  { destruct Hext as [-> | [-> | [-> | ->]]];
      (split; [discriminate | reflexivity]). }
  assert (Hlong : getFileExtensionFromUrl (base ++ "_normal." ++ ext) = ext).
  { change ("_normal." ++ ext)%string with ("_normal" ++ "." ++ ext)%string.
    rewrite <- string_app_assoc.
    apply dotted_extension; try assumption;
      unfold without in *; rewrite chars_app; intros Hin;
      apply in_app_or in Hin as [Hin|Hin]; auto;
      simpl in Hin; intuition discriminate. }
  split; [|exact Hlong].
  rewrite Hlong, (strip_normal base Hext).
  now apply dotted_extension.
Qed.

Lemma getProfileImageOriginalUrl_strips_witness :
  getProfileImageOriginalUrl
    "https://pbs.twimg.com/profile_images/1652878800311427073/j0-3owJd_normal.jpg"
  = "https://pbs.twimg.com/profile_images/1652878800311427073/j0-3owJd.jpg" /\
  getProfileImageOriginalUrl "https://pbs.twimg.com/profile_images/1/a_normal.webp"
  = "https://pbs.twimg.com/profile_images/1/a_normal.webp".
Proof.
  split.
  - apply (proj1 (getProfileImageOriginalUrl_strips _)
             "https://pbs.twimg.com/profile_images/1652878800311427073/j0-3owJd"
             "jpg"); [now left | reflexivity].
  - apply (proj2 (getProfileImageOriginalUrl_strips _)).
    intros base ext Hext Hurl. apply (f_equal chars) in Hurl.
    apply (f_equal (@rev ascii)) in Hurl.
    rewrite !chars_app, !rev_app_distr in Hurl.
    destruct Hext as [-> | [-> | [-> | ->]]]; simpl in Hurl;
      discriminate Hurl.
Defined.

Lemma getProfileImageOriginalUrl_keeps_extension_witness :
  getFileExtensionFromUrl
    (getProfileImageOriginalUrl ("https://pbs.twimg.com/profile_images/1/a"
                                   ++ "_normal." ++ "png"))
  = getFileExtensionFromUrl ("https://pbs.twimg.com/profile_images/1/a"
                               ++ "_normal." ++ "png") /\
  getFileExtensionFromUrl ("https://pbs.twimg.com/profile_images/1/a"
                             ++ "_normal." ++ "png") = "png".
Proof.
  apply (@getProfileImageOriginalUrl_keeps_extension
           "https://pbs.twimg.com/profile_images/1/a" "png").
  - right. right. now left.
  - unfold without. simpl. intuition discriminate.
  - unfold without. simpl. intuition discriminate.
Defined.
